(** * Detector-signal reconstruction: a shallow embedding

    The Python sources (signal_generator.py, noise_model.py,
    reconstruction.py, metrics.py, experiments.py, app.py) compute on numpy
    arrays
    of binary64 numbers.  Here an array is a [list R]: every float is read
    as the real number it stands for and every operation as its exact
    counterpart, so rounding is not part of the model.  What Python does
    outside the reals is kept explicit: an operation that raises
    (IndexError, ZeroDivisionError, ValueError) or that yields nan returns
    [None], and the one place that returns an infinity on purpose
    ([signal_to_noise_ratio]) has its own result type.

    The theorems are kept to what the binary64 computation shares with
    the exact one: the order of the operations, lengths, which calls
    raise, and equalities and bounds that rounding preserves; parameters
    are bounded where overflow or underflow would change the result.  A
    zero standard deviation stands for the float [+0.0].  Where a
    property of the exact reading fails in binary64, the failing run is
    computed on a transcription of the same lines over the primitive
    floats (module [Binary64]). *)

From Stdlib Require Import Reals Lra Lia.
From Stdlib Require PrimFloat.
From stdpp Require Import base option list strings pretty.

Local Open Scope R_scope.

(** ** Small Python and numpy vocabulary *)

(** [for x in items: st = body(st, x)], where the body may raise. *)
Fixpoint for_each {S A : Type} (body : S -> A -> option S)
    (items : list A) (st : S) : option S :=
  match items with
  | [] => Some st
  | a :: rest => st' ← body st a; for_each body rest st'
  end.

(** [range(n)] *)
Definition range (n : nat) : list nat := seq 0%nat n.

(** [a / b] on Python floats: ZeroDivisionError when [b] is zero. *)
Definition float_div (a b : R) : option R :=
  if Req_dec_T b 0 then None else Some (a / b).

(** [np.zeros(n)] *)
Definition np_zeros (n : nat) : list R := replicate n 0.


(** A Python [dict]: keys in insertion order, one value per key.
    [d[k] = v] replaces the value of a key already present and appends a
    new key at the end. *)
Fixpoint dict_set {K V : Type} `{EqDecision K} (d : list (K * V)) (k : K) (v : V)
    : list (K * V) :=
  match d with
  | [] => [(k, v)]
  | (k', v') :: rest =>
      if decide (k' = k) then (k, v) :: rest else (k', v') :: dict_set rest k v
  end.

(** [d[k]] *)
Fixpoint dict_get {K V : Type} `{EqDecision K} (d : list (K * V)) (k : K)
    : option V :=
  match d with
  | [] => None
  | (k', v') :: rest => if decide (k' = k) then Some v' else dict_get rest k
  end.

(** Equality of two reals, as a decision the model can branch on. *)
#[local] Instance R_eq_dec : EqDecision R := Req_dec_T.

(** ** numpy *)

(** [np.ones(n)] *)
Definition np_ones (n : nat) : list R := replicate n 1.

(** Sum of the entries of an array. *)
Definition np_sum (a : list R) : R := foldr Rplus 0 a.

(** [np.pad(a, (before, after), mode='edge')]: the first entry repeated
    [before] times in front, the last one [after] times behind.  An empty
    array has no edge to repeat: numpy raises ValueError unless both widths
    are zero. *)
Definition np_pad_edge (a : list R) (before after : nat) : option (list R) :=
  match a with
  | [] => if decide (before = 0%nat /\ after = 0%nat) then Some [] else None
  | first :: _ =>
      Some (replicate before first ++ a ++ replicate after (default first (last a)))
  end.

(** Inner product of two arrays of the same length. *)
Definition np_dot (a b : list R) : R := np_sum (zip_with Rmult a b).

(** [np.correlate(a, v, mode='valid')] for [len(a) >= len(v) >= 1]:
    entry [k] is the inner product of [v] with the window of [a] that
    starts at [k]. *)
Definition np_correlate_valid (a v : list R) : list R :=
  map (fun k => np_dot (take (length v) (drop k a)) v)
      (range (length a - length v + 1)).

(** [np.convolve(a, v, mode='valid')]: the longer argument comes first, an
    empty argument is a ValueError, and the convolution is the correlation
    with the reversed second argument. *)
Definition np_convolve_valid (a v : list R) : option (list R) :=
  let '(a, v) := if (length a <? length v)%nat then (v, a) else (a, v) in
  match a, v with
  | [], _ | _, [] => None
  | _, _ => Some (np_correlate_valid a (reverse v))
  end.

(** [a op b] on two one-dimensional arrays: entry by entry when the
    lengths agree, a one-entry array is broadcast against the other, any
    other pair of lengths is a ValueError. *)
Definition np_broadcast (op : R -> R -> R) (a b : list R) : option (list R) :=
  if decide (length a = length b) then Some (zip_with op a b)
  else
    match a, b with
    | [x], _ => Some (map (op x) b)
    | _, [y] => Some (map (fun x => op x y) a)
    | _, _ => None
    end.

(** [a ** 2] *)
Definition np_square (a : list R) : list R := map (fun x => x ^ 2) a.

(** [np.mean(a)]: the sum over the number of entries; nan on the empty
    array. *)
Definition np_mean (a : list R) : option R :=
  match a with
  | [] => None
  | _ :: _ => Some (np_sum a / INR (length a))
  end.

(** [np.std(a)]: the root of the mean squared deviation from the mean
    (no Bessel correction); nan on the empty array. *)
Definition np_std (a : list R) : option R :=
  m ← np_mean a;
  v ← np_mean (np_square (map (fun x => x - m) a));
  Some (sqrt v).

(** [np.max(a)]: ValueError on the empty array. *)
Definition np_max (a : list R) : option R :=
  match a with
  | [] => None
  | x :: rest => Some (foldl Rmax x rest)
  end.

(** A float64 result that may be an infinity. *)
Inductive ext_float : Type :=
  | Finite (x : R)
  | PosInf
  | NegInf.

(** [np.log10(x)]: minus infinity at zero, nan below zero. *)
Definition np_log10 (x : R) : option ext_float :=
  if Rlt_dec 0 x then Some (Finite (ln x / ln 10))
  else if Req_dec_T x 0 then Some NegInf
  else None.

(** [c * v] for a positive constant [c]. *)
Definition ext_scale (c : R) (v : ext_float) : ext_float :=
  match v with
  | Finite x => Finite (c * x)
  | PosInf => PosInf
  | NegInf => NegInf
  end.

(** The smallest integer not below [x]. *)
Definition Rceil (x : R) : Z := (- Int_part (- x))%Z.

(** [np.arange(start, stop, step)] on floats:
    [ceil((stop - start) / step)] entries [start + i * step], none when
    that count is not positive; a zero step is a ZeroDivisionError.
    numpy rounds the quotient to binary64 before it takes the ceiling, so
    its count can differ by one from this one when the quotient is within
    rounding of an integer; for the default time base (0, 100, 0.1) both
    counts are 1000. *)
Definition np_arange (start stop step : R) : option (list R) :=
  if Req_dec_T step 0 then None
  else
    let n := Z.to_nat (Rceil ((stop - start) / step)) in
    Some (map (fun i => start + INR i * step) (range n)).

(** ** np.random

    The module-level generator of numpy is one piece of global state.  It
    is passed along explicitly: a computation that draws takes the state
    and returns the new one.  The generator itself is numpy's, not this
    repository's, so it is an interface: a state set from a seed, one draw
    of a double in [[0, 1)], one draw from the unit normal distribution. *)
Class RandomState (G : Type) : Type := {
  seed_state : Z -> G;
  random_sample : G -> R * G;
  standard_normal : G -> R * G;
  random_sample_range : forall g, 0 <= fst (random_sample g) < 1
}.

(** A computation that reads and advances the generator and may raise. *)
Definition Rand (G A : Type) : Type := G -> option (A * G).

Definition rand_ret {G A : Type} (a : A) : Rand G A := fun g => Some (a, g).

Definition rand_bind {G A B : Type} (c : Rand G A) (k : A -> Rand G B) : Rand G B :=
  fun g => match c g with
           | Some (a, g') => k a g'
           | None => None
           end.

(** A step that does not touch the generator. *)
Definition rand_lift {G A : Type} (o : option A) : Rand G A :=
  fun g => match o with
           | Some a => Some (a, g)
           | None => None
           end.

Declare Scope rand_scope.
Delimit Scope rand_scope with rand.
Notation "x <- c ;; k" := (rand_bind c (fun x => k))
  (at level 20, c at level 99, k at level 200) : rand_scope.
Notation "c ;; k" := (rand_bind c (fun _ => k))
  (at level 100, k at level 200, right associativity) : rand_scope.
Notation "' pat <- c ;; k" := (rand_bind c (fun x => match x with pat => k end))
  (at level 20, pat pattern, c at level 99, k at level 200) : rand_scope.

(** [for x in items: st = body(st, x)] for a body that draws. *)
Fixpoint for_each_rand {G S A : Type} (body : S -> A -> Rand G S)
    (items : list A) (st : S) : Rand G S :=
  match items with
  | [] => rand_ret st
  | a :: rest => rand_bind (body st a) (for_each_rand body rest)
  end.

Section NpRandom.
Context {G : Type} `{RandomState G}.

(** [np.random.seed(s)] *)
Definition np_random_seed (s : Z) : Rand G unit :=
  fun _ => Some (tt, seed_state s).

(** [np.random.uniform(low, high)] *)
Definition np_random_uniform (low high : R) : Rand G R :=
  fun g => let '(u, g') := random_sample g in
           Some (low + (high - low) * u, g').

(** [n] successive unit normal draws. *)
Fixpoint standard_normals (n : nat) (g : G) : list R * G :=
  match n with
  | O => ([], g)
  | S n' =>
      let '(z, g') := standard_normal g in
      let '(zs, g'') := standard_normals n' g' in
      (z :: zs, g'')
  end.

(** [np.random.normal(loc, scale, size=n)]: every entry is
    [loc + scale * z] for a fresh unit normal draw [z]; a negative scale
    is a ValueError.  numpy tests the sign bit of [scale], so it rejects
    the float [-0.0] as well: a zero scale stands here for [+0.0], and the
    theorems speak of negative and of positive scales only. *)
Definition np_random_normal (loc scale : R) (n : nat) : Rand G (list R) :=
  fun g =>
    if Rlt_dec scale 0 then None
    else
      let '(zs, g') := standard_normals n g in
      Some (map (fun z => loc + scale * z) zs, g').
End NpRandom.

(** ** Complex arrays and scipy.fft *)

(** A complex128 number. *)
Record complex : Type := Cx { re : R; im : R }.

Definition C0 : complex := Cx 0 0.
Definition Cadd (a b : complex) : complex := Cx (re a + re b) (im a + im b).
Definition Cmul (a b : complex) : complex :=
  Cx (re a * re b - im a * im b) (re a * im b + im a * re b).
Definition Cscale (c : R) (a : complex) : complex := Cx (c * re a) (c * im a).

(** [exp(i * theta)] *)
Definition cis (theta : R) : complex := Cx (cos theta) (sin theta).

(** A real array read as a complex one. *)
Definition np_complex (a : list R) : list complex := map (fun x => Cx x 0) a.

(** [np.real(a)] *)
Definition np_real (a : list complex) : list R := map re a.

(** The sum of [f 0], ..., [f (n - 1)]. *)
Fixpoint Csum (f : nat -> complex) (n : nat) : complex :=
  match n with
  | O => C0
  | S n' => Cadd (Csum f n') (f n')
  end.

(** Entry [j] of an array, inside a sum that only visits valid indices. *)
Definition entry (x : list complex) (j : nat) : complex := default C0 (x !! j).

(** [scipy.fft.fft(x)]: [y[k] = sum_j x[j] * exp(-2 pi i j k / n)]; the
    library refuses an empty array (ValueError).  The library computes
    these sums in binary64, so its values agree with the sums below up to
    rounding only; the theorems use of the two transforms when they
    raise, the length of what they return, and the transform of zeros. *)
Definition fft (x : list complex) : option (list complex) :=
  let n := length x in
  if decide (n = 0%nat) then None
  else
    Some (map (fun k =>
                 Csum (fun j => Cmul (entry x j)
                                     (cis (- (2 * PI * INR j * INR k / INR n)))) n)
              (range n)).

(** [scipy.fft.ifft(y)]: [x[j] = (1 / n) * sum_k y[k] * exp(2 pi i j k / n)]. *)
Definition ifft (y : list complex) : option (list complex) :=
  let n := length y in
  if decide (n = 0%nat) then None
  else
    Some (map (fun j =>
                 Cscale (/ INR n)
                   (Csum (fun k => Cmul (entry y k)
                                        (cis (2 * PI * INR j * INR k / INR n))) n))
              (range n)).

(** [scipy.fft.fftfreq(n, d)]: the integers [0, ..., (n-1)//2] followed by
    [-(n//2), ..., -1], each times [1.0 / (n * d)]. *)
Definition fftfreq (n : nat) (d : R) : option (list R) :=
  val ← float_div 1 (INR n * d);
  let N := ((n - 1) `div` 2 + 1)%nat in
  let p1 := map Z.of_nat (range N) in
  let p2 := map (fun i => (- Z.of_nat (n `div` 2) + Z.of_nat i)%Z) (range (n `div` 2)) in
  Some (map (fun k => IZR k * val) (p1 ++ p2)).

(** ** signal_generator.py *)

Module SignalGenerator.

(** The attributes that [__init__] sets. *)
Record t : Type := {
  t_start : R;
  t_end : R;
  dt : R;
  time : list R;
  seed : Z
}.

(** The attribute assignments of [__init__], lines 19-23; the call
    [np.random.seed(self.seed)] of line 24 is made by [init] below. *)
Definition init_fields (t_start t_end dt : R) (seed : Z) : option t :=
  time ← np_arange t_start t_end dt;
  Some {| t_start := t_start; t_end := t_end; dt := dt; time := time; seed := seed |}.

(** [amplitude * np.exp(-(self.time - t0)**2 / (2 * sigma**2))].  With
    [sigma = 0] numpy divides by zero: a sample away from [t0] gets
    [exp(-inf) = 0], a sample at [t0] gets [0 / 0], which is nan.  In
    binary64 the denominator vanishes by underflow for every width below
    about [1.5e-162], and [sigma ** 2] overflows above about [1.3e154];
    the theorems keep the width between [10 ^ -150] and [10 ^ 150]. *)
Definition generate_gaussian_pulse (self : t) (amplitude t0 sigma : R)
    : option (list R) :=
  if Req_dec_T (2 * sigma ^ 2) 0 then
    if decide (t0 ∈ time self) then None
    else Some (map (fun _ => amplitude * 0) (time self))
  else
    Some (map (fun tm => amplitude * exp (- (tm - t0) ^ 2 / (2 * sigma ^ 2)))
              (time self)).

Section WithRandomState.
Context {G : Type} `{RandomState G}.
Local Open Scope rand_scope.

(** [SignalGenerator(t_start, t_end, dt, seed)] *)
Definition init (t_start t_end dt : R) (seed : Z) : Rand G t :=
  self <- rand_lift (init_fields t_start t_end dt seed);;
  np_random_seed seed;;
  rand_ret self.

(** One pass of the loop of [generate_event_batch], lines 58-62. *)
Definition event_batch_body (self : t) (amplitude_range t0_range sigma_range : R * R)
    (events : list (list R)) (i : nat) : Rand G (list (list R)) :=
  a <- np_random_uniform (fst amplitude_range) (snd amplitude_range);;
  t <- np_random_uniform (fst t0_range) (snd t0_range);;
  s <- np_random_uniform (fst sigma_range) (snd sigma_range);;
  pulse <- rand_lift (generate_gaussian_pulse self a t s);;
  rand_ret (<[i := pulse]> events).

Definition generate_event_batch (self : t) (n_events : nat)
    (amplitude_range t0_range sigma_range : R * R) : Rand G (list (list R)) :=
  let events := replicate n_events (np_zeros (length (time self))) in
  for_each_rand (event_batch_body self amplitude_range t0_range sigma_range)
    (range n_events) events.
End WithRandomState.

End SignalGenerator.

(** ** noise_model.py

    Of the noise processes only the additive Gaussian one is used by the
    two studies. *)

Module NoiseModel.

Record t : Type := { seed : Z }.

Section WithRandomState.
Context {G : Type} `{RandomState G}.
Local Open Scope rand_scope.

(** [NoiseModel(seed)] *)
Definition init (seed : Z) : Rand G t :=
  np_random_seed seed;;
  rand_ret {| seed := seed |}.

(** [add_gaussian_noise(signal, sigma)], lines 28-29. *)
Definition add_gaussian_noise (signal : list R) (sigma : R) : Rand G (list R) :=
  noise <- np_random_normal 0 sigma (length signal);;
  rand_lift (np_broadcast Rplus signal noise).
End WithRandomState.

End NoiseModel.
(** ** reconstruction.py *)

Module SignalReconstructor.

(** [moving_average(signal, window_size)], lines 22-34. *)
Definition moving_average (signal : list R) (window_size : Z) : option (list R) :=
  if (window_size <? 1)%Z then Some signal
  else
    let padding := Z.to_nat (window_size `div` 2) in
    padded_signal ← np_pad_edge signal padding padding;
    let kernel :=
      map (fun one => one / IZR window_size) (np_ones (Z.to_nat window_size)) in
    filtered ← np_convolve_valid padded_signal kernel;
    Some (take (length signal) filtered).

(** [yf_filtered[np.abs(xf) > cutoff_freq] = 0] on a copy of [yf]. *)
Definition zero_above (xf : list R) (cutoff_freq : R) (yf : list complex)
    : list complex :=
  zip_with (fun f y => if Rgt_dec (Rabs f) cutoff_freq then C0 else y) xf yf.

(** [fourier_filter(signal, dt, cutoff_freq)], lines 49-60. *)
Definition fourier_filter (signal : list R) (dt cutoff_freq : R)
    : option (list R) :=
  let n := length signal in
  yf ← fft (np_complex signal);
  xf ← fftfreq n dt;
  let yf_filtered := zero_above xf cutoff_freq yf in
  filtered_signal ← ifft yf_filtered;
  Some (np_real filtered_signal).

(** The three local variables the loop of [kalman_filter] carries. *)
Record kalman_state : Type := KalmanState {
  x_hat : R;
  p : R;
  reconstructed : list R
}.

(** Lines 98-104: from the current [(x_hat, p)] and the observation [z],
    the gain [k], the new estimate and the new variance. *)
Definition kalman_update (q r : R) (x_hat p z : R) : option (R * R * R) :=
  let p_minus := p + q in
  k ← float_div p_minus (p_minus + r);
  let x_hat' := x_hat + k * (z - x_hat) in
  let p' := (1 - k) * p_minus in
  Some (k, x_hat', p').

(** One pass through the body of [for i in range(n)]. *)
Definition kalman_body (signal : list R) (q r : R)
    (st : kalman_state) (i : nat) : option kalman_state :=
  z ← signal !! i;
  '(k, x_hat', p') ← kalman_update q r (x_hat st) (p st) z;
  Some (KalmanState x_hat' p' (<[i := x_hat']> (reconstructed st))).

(** The state on entry to the loop; [signal[0]] raises IndexError on an
    empty array. *)
Definition kalman_init (signal : list R) : option kalman_state :=
  x0 ← signal !! 0%nat;
  Some (KalmanState x0 1 (np_zeros (length signal))).

Definition kalman_filter (signal : list R) (process_noise measurement_noise : R)
    : option (list R) :=
  let n := length signal in
  st0 ← kalman_init signal;
  st ← for_each (kalman_body signal process_noise measurement_noise) (range n) st0;
  Some (reconstructed st).

(** The gain [k] that iteration [i] of the loop of [kalman_filter]
    computes: run the loop up to [i], then take [k] from the update. *)
Definition kalman_gain (signal : list R) (q r : R) (i : nat) : option R :=
  st0 ← kalman_init signal;
  st ← for_each (kalman_body signal q r) (range i) st0;
  z ← signal !! i;
  '(k, _, _) ← kalman_update q r (x_hat st) (p st) z;
  Some k.

End SignalReconstructor.

(** ** The recurrence of the specification (section 4.3, item 3)

    Written from the specification's words, to be compared with
    [SignalReconstructor.kalman_filter]: [x] starts at the first sample,
    [p] at 1, and every observation in order yields one emitted [x]. *)
Fixpoint kalman_recurrence_from (q r : R) (x p : R) (observations : list R)
    : list R :=
  match observations with
  | [] => []
  | z :: rest =>
      let p_minus := p + q in
      let gain := p_minus / (p_minus + r) in
      let x' := x + gain * (z - x) in
      let p' := (1 - gain) * p_minus in
      x' :: kalman_recurrence_from q r x' p' rest
  end.

Definition kalman_recurrence (q r : R) (signal : list R) : list R :=
  match signal with
  | [] => []
  | first :: _ => kalman_recurrence_from q r first 1 signal
  end.


(** ** Binary64 transcriptions

    Lines of the sources written over the primitive floats.  Python's
    float operations and numpy's float64 operations are the IEEE 754
    binary64 ones, which are those of [PrimFloat]. *)

Module Binary64.

Import PrimFloat.
Local Open Scope float_scope.

(** [a / b] on Python floats: ZeroDivisionError when [b] is zero. *)
Definition float_div (a b : float) : option float :=
  if b =? 0 then None else Some (a / b).

(** reconstruction.py, lines 98-104, as [SignalReconstructor.kalman_update]. *)
Definition kalman_update (q r : float) (x_hat p z : float)
    : option (float * float * float) :=
  let p_minus := p + q in
  k ← float_div p_minus (p_minus + r);
  let x_hat' := x_hat + k * (z - x_hat) in
  let p' := (1 - k) * p_minus in
  Some (k, x_hat', p').

(** The gains of the successive passes of the loop of [kalman_filter]
    from the state [(x_hat, p)] on. *)
Fixpoint kalman_gains_from (q r : float) (x_hat p : float)
    (observations : list float) : option (list float) :=
  match observations with
  | [] => Some []
  | z :: rest =>
      '(k, x_hat', p') ← kalman_update q r x_hat p z;
      ks ← kalman_gains_from q r x_hat' p' rest;
      Some (k :: ks)
  end.

(** The gains of [kalman_filter(signal, q, r)], one per sample: the state
    starts at [(signal[0], 1.0)]. *)
Definition kalman_gains (signal : list float) (q r : float)
    : option (list float) :=
  match signal with
  | [] => None
  | first :: _ => kalman_gains_from q r first 1 signal
  end.




(** signal_generator.py, line 40: the argument of [np.exp] at a sample
    time [t], [-(t - t0)**2 / (2 * sigma**2)]; numpy divides by a zero
    denominator without raising. *)
Definition gaussian_exponent (t t0 sigma : float) : float :=
  - ((t - t0) * (t - t0)) / (2 * (sigma * sigma)).

End Binary64.

(** ** metrics.py *)

Module PerformanceMetrics.

(** The dictionary that [compute_all] returns, one field per key. *)
Record MetricReport : Type := {
  MSE : R;
  SNR : ext_float;
  Peak_Error : R;
  Bias : R
}.

Definition mean_squared_error (true_signal reconstructed_signal : list R)
    : option R :=
  diff ← np_broadcast Rminus true_signal reconstructed_signal;
  np_mean (np_square diff).

Definition signal_to_noise_ratio (true_signal reconstructed_signal : list R)
    : option ext_float :=
  signal_power ← np_mean (np_square true_signal);
  diff ← np_broadcast Rminus true_signal reconstructed_signal;
  noise_power ← np_mean (np_square diff);
  if Req_dec_T noise_power 0 then Some PosInf
  else
    l ← np_log10 (signal_power / noise_power);
    Some (ext_scale 10 l).

Definition peak_amplitude_error (true_signal reconstructed_signal : list R)
    : option R :=
  true_peak ← np_max true_signal;
  recon_peak ← np_max reconstructed_signal;
  Some (Rabs (true_peak - recon_peak)).

Definition reconstruction_bias (true_signal reconstructed_signal : list R)
    : option R :=
  diff ← np_broadcast Rminus reconstructed_signal true_signal;
  np_mean diff.

Definition compute_all (true_signal reconstructed_signal : list R)
    : option MetricReport :=
  mse ← mean_squared_error true_signal reconstructed_signal;
  snr ← signal_to_noise_ratio true_signal reconstructed_signal;
  peak ← peak_amplitude_error true_signal reconstructed_signal;
  bias ← reconstruction_bias true_signal reconstructed_signal;
  Some {| MSE := mse; SNR := snr; Peak_Error := peak; Bias := bias |}.

End PerformanceMetrics.

(** ** experiments.py

    The two studies are modelled up to the dictionary they return; the
    directory and the JSON files they write are outside the model. *)

Module Experiments.

Import PerformanceMetrics SignalReconstructor.

(** The value stored per noise level by [run_noise_sweep]. *)
Record SweepEntry : Type := {
  MA : MetricReport;
  Fourier : MetricReport;
  Kalman : MetricReport;
  Noisy : MetricReport
}.

(** The value stored per event count by [run_event_scaling_study]; a mean
    or deviation of no events is nan ([None]). *)
Record ScalingEntry : Type := {
  MA_bias_mean : option R;
  MA_bias_std : option R;
  KF_bias_mean : option R;
  KF_bias_std : option R;
  MA_biases : list R;
  KF_biases : list R
}.

(** The attributes of an [Experiments] object that carry data; the two
    stateless helpers are the modules above. *)
Record t : Type := {
  gen : SignalGenerator.t;
  noise : NoiseModel.t
}.

(** Default arguments of the reconstructors. *)
Definition default_window_size : Z := 5.
Definition default_process_noise : R := 1 / 10000.
Definition default_measurement_noise : R := 1 / 100.

(** [str(count)] of a count: its decimal digits. *)
Definition str (count : nat) : string := pretty count.

Section WithRandomState.
Context {G : Type} `{RandomState G}.
Local Open Scope rand_scope.

(** [Experiments()]: the generator with its default time base
    (0, 100, 0.1), then the noise model, both seeding with 42. *)
Definition init : Rand G t :=
  gen <- SignalGenerator.init 0 100 (1 / 10) 42;;
  noise <- NoiseModel.init 42;;
  rand_ret {| gen := gen; noise := noise |}.

(** One pass of the loop of [run_noise_sweep], lines 32-47. *)
Definition noise_sweep_body (clean_signal : list R) (dt : R)
    (results : list (R * SweepEntry)) (sigma : R)
    : Rand G (list (R * SweepEntry)) :=
  noisy_signal <- NoiseModel.add_gaussian_noise clean_signal sigma;;
  f_ma <- rand_lift (moving_average noisy_signal default_window_size);;
  f_ff <- rand_lift (fourier_filter noisy_signal dt (1 / 2));;
  f_kf <- rand_lift (kalman_filter noisy_signal
                       default_process_noise default_measurement_noise);;
  m_ma <- rand_lift (compute_all clean_signal f_ma);;
  m_ff <- rand_lift (compute_all clean_signal f_ff);;
  m_kf <- rand_lift (compute_all clean_signal f_kf);;
  m_noisy <- rand_lift (compute_all clean_signal noisy_signal);;
  rand_ret (dict_set results sigma
              {| MA := m_ma; Fourier := m_ff; Kalman := m_kf; Noisy := m_noisy |}).

(** [run_noise_sweep(sigma_levels)]; a result is keyed by its noise
    level, which stands for the string [str(sigma)]. *)
Definition run_noise_sweep (self : t) (sigma_levels : list R)
    : Rand G (list (R * SweepEntry)) :=
  clean_signal <-
    rand_lift (SignalGenerator.generate_gaussian_pulse (gen self) 1 50 5);;
  let dt := SignalGenerator.dt (gen self) in
  for_each_rand (noise_sweep_body clean_signal dt) sigma_levels [].

(** One pass of the inner loop of [run_event_scaling_study], lines 68-78:
    the two lists of biases grow by one entry each. *)
Definition event_body (clean_events : list (list R))
    (biases : list R * list R) (i : nat) : Rand G (list R * list R) :=
  let '(bias_ma, bias_kf) := biases in
  clean <- rand_lift (clean_events !! i);;
  noisy <- NoiseModel.add_gaussian_noise clean (1 / 5);;
  f_ma <- rand_lift (moving_average noisy default_window_size);;
  f_kf <- rand_lift (kalman_filter noisy
                       default_process_noise default_measurement_noise);;
  b_ma <- rand_lift (reconstruction_bias clean f_ma);;
  b_kf <- rand_lift (reconstruction_bias clean f_kf);;
  rand_ret (bias_ma ++ [b_ma], bias_kf ++ [b_kf]).

(** Lines 80-87. *)
Definition scaling_entry (bias_ma bias_kf : list R) : ScalingEntry :=
  {| MA_bias_mean := np_mean bias_ma;
     MA_bias_std := np_std bias_ma;
     KF_bias_mean := np_mean bias_kf;
     KF_bias_std := np_std bias_kf;
     MA_biases := take 100 bias_ma;
     KF_biases := take 100 bias_kf |}.

(** One pass of the outer loop, lines 61-87. *)
Definition scaling_body (self : t) (results : list (string * ScalingEntry))
    (count : nat) : Rand G (list (string * ScalingEntry)) :=
  clean_events <-
    SignalGenerator.generate_event_batch (gen self) count
      (8 / 10, 12 / 10) (40, 60) (3, 7);;
  '(bias_ma, bias_kf) <-
    for_each_rand (event_body clean_events) (range count) ([], []);;
  rand_ret (dict_set results (str count) (scaling_entry bias_ma bias_kf)).

Definition run_event_scaling_study (self : t) (event_counts : list nat)
    : Rand G (list (string * ScalingEntry)) :=
  for_each_rand (scaling_body self) event_counts [].
End WithRandomState.

End Experiments.

(** ** A generator for concrete runs

    The state counts the draws made so far.  The first thousand unit
    normal draws are 1 and all later ones 0; every uniform draw is 0. *)
Definition counting_normal (g : nat) : R * nat :=
  (if (g <? 1000)%nat then 1 else 0, S g).

#[local] Instance counting_random_state : RandomState nat := {|
  seed_state := fun _ => 0%nat;
  random_sample := fun g => (0, S g);
  standard_normal := counting_normal;
  random_sample_range := fun _ => conj (Rle_refl 0) Rlt_0_1
|}.

(** ** Vocabulary of the statements about the studies *)

(** The generator after one block of [n] unit normal draws. *)
Definition skip_normals {G : Type} `{RandomState G} (n : nat) (g : G) : G :=
  snd (standard_normals n g).

(** The [k]-th block of [n] unit normal draws made from state [g] on. *)
Definition block_draws {G : Type} `{RandomState G} (n : nat) (g : G) (k : nat)
    : list R :=
  fst (standard_normals n (Nat.iter k (skip_normals n) g)).

(** The two biases that [run_event_scaling_study] computes for one event:
    those of the moving average and of the recursive estimator of the
    noisy signal, each against the clean one. *)
Definition event_biases (clean noisy : list R) (b_ma b_kf : R) : Prop :=
  exists f_ma f_kf,
    SignalReconstructor.moving_average noisy Experiments.default_window_size
      = Some f_ma
    /\ SignalReconstructor.kalman_filter noisy
         Experiments.default_process_noise Experiments.default_measurement_noise
       = Some f_kf
    /\ PerformanceMetrics.reconstruction_bias clean f_ma = Some b_ma
    /\ PerformanceMetrics.reconstruction_bias clean f_kf = Some b_kf.

(** [bias_ma] and [bias_kf] list, event by event, the biases of the events
    [events], each a clean signal with its noisy version. *)
Definition per_event_biases (events : list (list R * list R))
    (bias_ma bias_kf : list R) : Prop :=
  length bias_ma = length events
  /\ length bias_kf = length events
  /\ forall i clean noisy,
       events !! i = Some (clean, noisy) ->
       length noisy = length clean
       /\ exists b_ma b_kf,
            bias_ma !! i = Some b_ma
            /\ bias_kf !! i = Some b_kf
            /\ event_biases clean noisy b_ma b_kf.

(** What is stored for an event count: the entry made from the per-event
    biases of [count] events. *)
Definition scaling_entry_of (count : nat) (e : Experiments.ScalingEntry) : Prop :=
  exists events bias_ma bias_kf,
    length events = count
    /\ per_event_biases events bias_ma bias_kf
    /\ e = Experiments.scaling_entry bias_ma bias_kf.

(** A row of the batch that the study draws: a Gaussian pulse on the time
    base with an amplitude in [[0.8, 1.2]], a center in [[40, 60]] and a
    width in [[3, 7]]. *)
Definition study_pulse (time row : list R) : Prop :=
  exists a t0 s,
    8 / 10 <= a <= 12 / 10 /\ 40 <= t0 <= 60 /\ 3 <= s <= 7
    /\ row = map (fun tm => a * exp (- (tm - t0) ^ 2 / (2 * s ^ 2))) time.

(** The noisy version of event [i] of a batch whose noise is drawn from
    the state [g] on, one block of [n] unit normal draws per event:
    [add_gaussian_noise(clean, sigma=0.2)]. *)
Definition study_noisy {G : Type} `{RandomState G} (n : nat) (g : G)
    (i : nat) (clean : list R) : list R :=
  zip_with Rplus clean (map (fun z => 0 + 1 / 5 * z) (block_draws n g i)).

(** [bias_ma] and [bias_kf] hold, event by event, the two biases of the
    events of the batch [clean_events], each scored against its noisy
    version. *)
Definition study_biases {G : Type} `{RandomState G}
    (clean_events : list (list R)) (n : nat) (g : G)
    (bias_ma bias_kf : list R) : Prop :=
  length bias_ma = length clean_events
  /\ length bias_kf = length clean_events
  /\ forall i clean,
       clean_events !! i = Some clean ->
       exists b_ma b_kf,
         bias_ma !! i = Some b_ma
         /\ bias_kf !! i = Some b_kf
         /\ event_biases clean (study_noisy n g i clean) b_ma b_kf.

(** One pass of the study for [count] events from the generator state
    [g]: the batch is drawn first, then the noise of its events in turn,
    and the entry is made from the biases of these events. *)
Definition study_pass {G : Type} `{RandomState G} (self : Experiments.t)
    (count : nat) (g : G) (e : Experiments.ScalingEntry) : Prop :=
  exists clean_events g_b bias_ma bias_kf,
    SignalGenerator.generate_event_batch (Experiments.gen self) count
      (8 / 10, 12 / 10) (40, 60) (3, 7) g
    = Some (clean_events, g_b)
    /\ length clean_events = count
    /\ Forall (study_pulse (SignalGenerator.time (Experiments.gen self)))
         clean_events
    /\ study_biases clean_events
         (length (SignalGenerator.time (Experiments.gen self))) g_b
         bias_ma bias_kf
    /\ e = Experiments.scaling_entry bias_ma bias_kf.

(** ** noise_model.py, the remaining processes

    [add_spikes] draws, besides uniform doubles, from
    [np.random.choice]; numpy picks an entry of the given array by a
    random index below its length.  That draw is a second interface on the
    generator state. *)
Class RandomChoice (G : Type) `{RandomState G} : Type := {
  randint : nat -> G -> nat * G;
  randint_range : forall n g, (0 < n)%nat -> (fst (randint n g) < n)%nat
}.

(** [np.random.random(size=n)]: [n] successive doubles in [[0, 1)]. *)
Fixpoint np_random_random {G : Type} `{RandomState G} (n : nat) (g : G)
    : list R * G :=
  match n with
  | O => ([], g)
  | S n' =>
      let '(u, g') := random_sample g in
      let '(us, g'') := np_random_random n' g' in
      (u :: us, g'')
  end.

(** [np.random.choice(a, size=n)]: [n] entries of [a], each at a fresh
    random index; an empty [a] is a ValueError. *)
Fixpoint np_random_choice {G : Type} `{RandomChoice G} (a : list R) (n : nat)
    (g : G) : option (list R * G) :=
  match n with
  | O => match a with [] => None | _ :: _ => Some ([], g) end
  | S n' =>
      let '(i, g') := randint (length a) g in
      c ← a !! i;
      '(cs, g'') ← np_random_choice a n' g';
      Some (c :: cs, g'')
  end.

Module NoiseProcesses.

Section WithRandomChoice.
Context {G : Type} `{RandomChoice G}.
Local Open Scope rand_scope.

(** [add_baseline_drift(signal, time, amplitude, frequency)], lines 45-46. *)
Definition add_baseline_drift (signal time : list R) (amplitude frequency : R)
    : option (list R) :=
  let drift := map (fun t => amplitude * sin (2 * PI * frequency * t)) time in
  np_broadcast Rplus signal drift.

(** [(draws < prob).astype(float)] *)
Definition spike_mask (prob : R) (draws : list R) : list R :=
  map (fun u => if Rlt_dec u prob then 1 else 0) draws.

(** [add_spikes(signal, prob, amplitude)], lines 60-63: the mask of the
    samples hit, times a random sign times the amplitude. *)
Definition add_spikes (signal : list R) (prob amplitude : R) : Rand G (list R) :=
  fun g =>
    let n := length signal in
    let '(draws, g1) := np_random_random n g in
    let spikes := spike_mask prob draws in
    '(signs, g2) ← np_random_choice [-1; 1] n g1;
    spikes' ← np_broadcast Rmult spikes (map (fun c => c * amplitude) signs);
    out ← np_broadcast Rplus signal spikes';
    Some (out, g2).

(** [apply_full_noise_model], lines 72-75. *)
Definition apply_full_noise_model (signal time : list R)
    (gaussian_sigma drift_amplitude drift_frequency spike_prob spike_amplitude : R)
    : Rand G (list R) :=
  s <- NoiseModel.add_gaussian_noise signal gaussian_sigma;;
  s <- rand_lift (add_baseline_drift s time drift_amplitude drift_frequency);;
  s <- add_spikes s spike_prob spike_amplitude;;
  rand_ret s.

End WithRandomChoice.

End NoiseProcesses.

(** ** app.py *)

Module App.

(** The JSON object that [simulate] returns. *)
Record Response : Type := {
  time : list R;
  clean : list R;
  noisy : list R;
  kalman : list R;
  fourier : list R
}.

Section WithRandomChoice.
Context {G : Type} `{RandomChoice G}.
Local Open Scope rand_scope.

(** [simulate(amplitude, t0, sigma, noise_sigma, drift_amp, cutoff)],
    lines 30-53.  The drift frequency 0.05 and the spike amplitude 1.5 are
    the defaults of [apply_full_noise_model]. *)
Definition simulate (amplitude t0 sigma noise_sigma drift_amp cutoff : R)
    : Rand G Response :=
  gen <- SignalGenerator.init 0 100 (1 / 10) 42;;
  NoiseModel.init 42;;
  let t := SignalGenerator.time gen in
  clean <- rand_lift (SignalGenerator.generate_gaussian_pulse gen amplitude t0 sigma);;
  noisy <- NoiseProcesses.apply_full_noise_model clean t
             noise_sigma drift_amp (5 / 100) (5 / 1000) (15 / 10);;
  recon_kf <- rand_lift (SignalReconstructor.kalman_filter noisy
                           Experiments.default_process_noise
                           Experiments.default_measurement_noise);;
  recon_ff <- rand_lift (SignalReconstructor.fourier_filter noisy
                           (SignalGenerator.dt gen) cutoff);;
  rand_ret {| time := t; clean := clean; noisy := noisy;
              kalman := recon_kf; fourier := recon_ff |}.

End WithRandomChoice.

End App.

(** The counting generator always picks index 0. *)
#[local] Instance counting_random_choice : RandomChoice nat := {|
  randint := fun _ g => (0%nat, S g);
  randint_range := fun n g Hn => Hn
|}.

(** The variance [p] that [kalman_filter] holds on entry to pass [i] of its
    loop: 1 at first, then updated as in lines 98-104. *)
Fixpoint kalman_variance (q r : R) (i : nat) : R :=
  match i with
  | O => 1
  | S i' =>
      let p_minus := kalman_variance q r i' + q in
      (1 - p_minus / (p_minus + r)) * p_minus
  end.

(** A row of an event batch: the pulse of some parameters drawn from the
    three ranges. *)
Definition drawn_pulse (self : SignalGenerator.t)
    (amplitude_range t0_range sigma_range : R * R) (row : list R) : Prop :=
  exists a t0 s,
    fst amplitude_range <= a <= snd amplitude_range
    /\ fst t0_range <= t0 <= snd t0_range
    /\ fst sigma_range <= s <= snd sigma_range
    /\ SignalGenerator.generate_gaussian_pulse self a t0 s = Some row.


(** The signal that pass [k] of [run_noise_sweep] scores at level
    [sigma]: the clean signal plus [sigma] times the [k]-th block of unit
    normal draws. *)
Definition sweep_noisy {G : Type} `{RandomState G} (clean : list R) (sigma : R)
    (g : G) (k : nat) : list R :=
  zip_with Rplus clean
    (map (fun z => 0 + sigma * z) (block_draws (length clean) g k)).

(** The entry that [run_noise_sweep] stores for a noisy signal: the
    reports of its three reconstructions and of the noisy signal itself,
    each against the clean signal. *)
Definition sweep_entry (clean : list R) (dt : R) (noisy : list R)
    (e : Experiments.SweepEntry) : Prop :=
  exists f_ma f_ff f_kf,
    SignalReconstructor.moving_average noisy Experiments.default_window_size
      = Some f_ma
    /\ SignalReconstructor.fourier_filter noisy dt (1 / 2) = Some f_ff
    /\ SignalReconstructor.kalman_filter noisy
         Experiments.default_process_noise Experiments.default_measurement_noise
       = Some f_kf
    /\ PerformanceMetrics.compute_all clean f_ma = Some (Experiments.MA e)
    /\ PerformanceMetrics.compute_all clean f_ff = Some (Experiments.Fourier e)
    /\ PerformanceMetrics.compute_all clean f_kf = Some (Experiments.Kalman e)
    /\ PerformanceMetrics.compute_all clean noisy = Some (Experiments.Noisy e).

(** The generator that [SignalGenerator()] builds from its defaults. *)
Definition default_generator : SignalGenerator.t :=
  {| SignalGenerator.t_start := 0;
     SignalGenerator.t_end := 100;
     SignalGenerator.dt := 1 / 10;
     SignalGenerator.time := map (fun i => 0 + INR i * (1 / 10)) (range 1000);
     SignalGenerator.seed := 42 |}.
(** * Theorems *)

Import SignalReconstructor.

Lemma float_div_nonzero (a b : R) : b <> 0 -> float_div a b = Some (a / b).
Proof.
  intros Hb. unfold float_div. destruct (Req_dec_T b 0); [contradiction | reflexivity].
Qed.

(** With [q >= 0], [r > 0] and a positive variance the update never
    divides by zero, and the variance stays positive. *)
Lemma kalman_update_defined (q r x pv z : R) :
  0 <= q -> 0 < r -> 0 < pv ->
  let p_minus := pv + q in
  let k := p_minus / (p_minus + r) in
  kalman_update q r x pv z = Some (k, x + k * (z - x), (1 - k) * p_minus)
  /\ 0 < (1 - k) * p_minus.
Proof.
  intros Hq Hr Hp p_minus k. unfold kalman_update.
  fold p_minus. rewrite float_div_nonzero by (unfold p_minus; lra).
  split; [reflexivity |].
  assert (Hpm : 0 < p_minus) by (unfold p_minus; lra).
  replace ((1 - k) * p_minus) with (r * p_minus / (p_minus + r))
    by (unfold k; field; lra).
  apply Rdiv_lt_0_compat; nra.
Qed.

(** One pass of the loop body at a sample that exists. *)
Lemma kalman_body_step (signal : list R) (q r : R) (st : kalman_state)
    (i : nat) (z : R) :
  0 <= q -> 0 < r -> 0 < p st -> signal !! i = Some z ->
  let p_minus := p st + q in
  let k := p_minus / (p_minus + r) in
  let x' := x_hat st + k * (z - x_hat st) in
  kalman_body signal q r st i
    = Some (KalmanState x' ((1 - k) * p_minus) (<[i := x']> (reconstructed st)))
  /\ 0 < (1 - k) * p_minus.
Proof.
  intros Hq Hr Hp Hz p_minus k x'.
  destruct (kalman_update_defined q r (x_hat st) (p st) z Hq Hr Hp) as [Hupd Hpos].
  split; [| exact Hpos].
  unfold kalman_body. rewrite Hz. cbn [mbind option_bind].
  rewrite Hupd. reflexivity.
Qed.

(** Loop invariant of [kalman_filter]: after the samples [done] the array
    holds their estimates followed by the zeros not yet overwritten; the
    remaining passes fill in what the recurrence emits on [rest]. *)
Lemma kalman_loop_recurrence (q r : R) (rest done out : list R) (x pv : R) :
  0 <= q -> 0 < r -> 0 < pv ->
  length out = length done ->
  exists st,
    for_each (kalman_body (done ++ rest) q r) (seq (length done) (length rest))
      (KalmanState x pv (out ++ np_zeros (length rest))) = Some st
    /\ reconstructed st = out ++ kalman_recurrence_from q r x pv rest.
Proof.
  intros Hq Hr. revert done out x pv.
  induction rest as [| z rest IH]; intros done out x pv Hp Hlen.
  - simpl. eexists; split; [reflexivity |]. reflexivity.
  - cbn [length seq for_each].
    assert (Hz : (done ++ z :: rest) !! length done = Some z).
    { rewrite lookup_app_r by lia. rewrite Nat.sub_diag. reflexivity. }
    destruct (kalman_body_step (done ++ z :: rest) q r
                (KalmanState x pv (out ++ np_zeros (S (length rest))))
                (length done) z Hq Hr Hp Hz) as [Hstep Hpos].
    cbn [x_hat p reconstructed] in Hstep, Hpos.
    rewrite Hstep. cbn [mbind option_bind].
    set (k := (pv + q) / (pv + q + r)) in *.
    set (x' := x + k * (z - x)) in *.
    set (p' := (1 - k) * (pv + q)) in *.
    assert (Hins : <[length done := x']> (out ++ np_zeros (S (length rest)))
                   = (out ++ [x']) ++ np_zeros (length rest)).
    { rewrite <- Hlen. rewrite insert_app_r_alt by lia.
      rewrite Nat.sub_diag. cbn. rewrite <- app_assoc. reflexivity. }
    rewrite Hins.
    specialize (IH (done ++ [z]) (out ++ [x']) x' p' Hpos).
    rewrite !length_app in IH. cbn [length] in IH.
    replace (length done + 1)%nat with (S (length done)) in IH by lia.
    rewrite <- app_assoc in IH. cbn [app] in IH.
    destruct IH as [st [Hrun Hrec]]; [lia |].
    exists st. split; [exact Hrun |].
    rewrite Hrec. rewrite <- app_assoc. reflexivity.
Qed.

Lemma kalman_recurrence_from_length (q r x pv : R) (obs : list R) :
  length (kalman_recurrence_from q r x pv obs) = length obs.
Proof.
  revert x pv. induction obs as [| z obs IH]; intros x pv; [reflexivity |].
  cbn [kalman_recurrence_from length]. rewrite IH. reflexivity.
Qed.

(** With [q >= 0] and [r > 0] the filter is defined on every non-empty
    signal, and its output is as long as the signal. *)
Lemma kalman_filter_defined (signal : list R) (q r : R) :
  signal <> [] -> 0 <= q -> 0 < r ->
  exists out,
    kalman_filter signal q r = Some out /\ length out = length signal.
Proof.
  intros Hne Hq Hr. destruct signal as [| z0 rest]; [contradiction |].
  unfold kalman_filter, kalman_init, range. cbn [lookup list_lookup mbind option_bind].
  destruct (kalman_loop_recurrence q r (z0 :: rest) [] [] z0 1 Hq Hr Rlt_0_1 eq_refl)
    as [st [Hrun Hrec]].
  cbn [app length] in Hrun. cbn [length]. rewrite Hrun. cbn [mbind option_bind].
  eexists. split; [reflexivity |].
  rewrite Hrec. cbn [app]. rewrite kalman_recurrence_from_length. reflexivity.
Qed.

(** Comparing two fractions with positive denominators. *)
Lemma Rdiv_lt_cross (n1 d1 n2 d2 : R) :
  0 < d1 -> 0 < d2 -> n2 * d1 < n1 * d2 -> n2 / d2 < n1 / d1.
Proof.
  intros H1 H2 H.
  replace (n2 / d2) with (n2 * d1 * / (d1 * d2)) by (field; lra).
  replace (n1 / d1) with (n1 * d2 * / (d1 * d2)) by (field; lra).
  apply Rmult_lt_compat_r; [| exact H].
  apply Rinv_0_lt_compat. nra.
Qed.

(** ** The recursive estimator *)

(** C1. For every non-empty signal, every process-noise variance [q >= 0]
    and measurement-noise variance [r > 0], [kalman_filter] returns (and
    does not raise) exactly the sequence of the specification's recurrence:
    [x] starts at the first sample and [p] at 1; each sample in order gives
    [p_minus = p + q], [gain = p_minus / (p_minus + r)],
    [x := x + gain * (sample - x)], [p := (1 - gain) * p_minus], and [x] is
    the output at that index. *)
Theorem kalman_filter_is_recurrence (signal : list R) (q r : R) :
  signal <> [] -> 0 <= q -> 0 < r ->
  kalman_filter signal q r = Some (kalman_recurrence q r signal).
Proof.
  intros Hne Hq Hr. destruct signal as [| z0 rest]; [contradiction |].
  unfold kalman_filter, kalman_init, range. cbn [lookup list_lookup mbind option_bind].
  destruct (kalman_loop_recurrence q r (z0 :: rest) [] [] z0 1 Hq Hr Rlt_0_1 eq_refl)
    as [st [Hrun Hrec]].
  cbn [app length] in Hrun. cbn [length]. rewrite Hrun. cbn [mbind option_bind].
  rewrite Hrec. reflexivity.
Qed.

Lemma kalman_filter_is_recurrence_witness :
  kalman_filter [1; 3; 2] (1 / 10) 1 = Some (kalman_recurrence (1 / 10) 1 [1; 3; 2]).
Proof.
  apply kalman_filter_is_recurrence; [discriminate | lra | lra].
Defined.

(** C2, as the code has it.  At the first pass of the loop, where the
    variance is still 1, a larger measurement-noise variance never gives a
    larger gain: for [0 <= q] and [0 < r1 < r2], none above [10 ^ 300] so
    that no sum overflows, both runs compute a gain at step 0, the one
    under [r2] is not above the one under [r1], and both lie between 0
    and 1.  Rounding keeps this order (the divisor does not shrink when
    [r] grows) but can merge the two gains, so the order is not strict;
    at the later passes binary64 can reverse it. *)
Theorem kalman_first_gain_monotone_in_measurement_noise
    (signal : list R) (q r1 r2 : R) :
  signal <> [] -> 0 <= q <= 10 ^ 300 -> 0 < r1 -> r1 < r2 -> r2 <= 10 ^ 300 ->
  exists k1 k2,
    kalman_gain signal q r1 0 = Some k1
    /\ kalman_gain signal q r2 0 = Some k2
    /\ k2 <= k1 /\ 0 <= k2 /\ k1 <= 1.
Proof.
  intros Hne [Hq _] Hr1 Hr _.
  destruct signal as [| z0 rest]; [contradiction |].
  destruct (kalman_update_defined q r1 z0 1 z0 Hq Hr1 Rlt_0_1) as [Hu1 _].
  destruct (kalman_update_defined q r2 z0 1 z0 Hq ltac:(lra) Rlt_0_1) as [Hu2 _].
  exists ((1 + q) / (1 + q + r1)), ((1 + q) / (1 + q + r2)).
  unfold kalman_gain, kalman_init, range.
  cbn [lookup list_lookup mbind option_bind seq for_each x_hat p].
  rewrite Hu1, Hu2. cbn [mbind option_bind].
  split; [reflexivity |]. split; [reflexivity |].
  split; [| split].
  - apply Rlt_le, Rdiv_lt_cross; nra.
  - apply Rlt_le, Rdiv_lt_0_compat; lra.
  - apply Rlt_le. apply (Rmult_lt_reg_r (1 + q + r1)); [lra |].
    replace ((1 + q) / (1 + q + r1) * (1 + q + r1)) with (1 + q) by (field; lra).
    lra.
Qed.

Lemma kalman_first_gain_monotone_in_measurement_noise_witness :
  exists k1 k2,
    kalman_gain [1; 3; 2] (1 / 10) 1 0 = Some k1
    /\ kalman_gain [1; 3; 2] (1 / 10) 2 0 = Some k2
    /\ k2 <= k1 /\ 0 <= k2 /\ k1 <= 1.
Proof.
  apply kalman_first_gain_monotone_in_measurement_noise;
    [discriminate | | lra | lra |].
  - split; [lra |]. apply Rle_trans with 1; [lra |]. apply pow_R1_Rle. lra.
  - apply Rle_trans with (10 ^ 1); [lra |]. apply Rle_pow; [lra | lia].
Defined.

Section Binary64Kalman.
Import PrimFloat.

(** The gains of [kalman_filter] on the signal (1, 3, 2) with [q = 0], in
    binary64.  Under [r = 2 ^ -60] the first divisor [1 + r] rounds to 1,
    the gain is exactly 1, the variance becomes [(1 - 1) * 1 = 0] and
    every later gain is 0.  Under the larger [r = 2 ^ -52] the second
    gain is 0.5: more measurement noise, larger gain. *)
Lemma kalman_gain_binary64_not_monotone :
  (0x1p-60 <? 0x1p-52)%float = true
  /\ Binary64.kalman_gains [1; 3; 2]%float 0%float 0x1p-60%float
     = Some [1; 0; 0]%float
  /\ Binary64.kalman_gains [1; 3; 2]%float 0%float 0x1p-52%float
     = Some [0x1.ffffffffffffep-1; 0.5; 0x1.5555555555555p-2]%float
  /\ (0 <? 0.5)%float = true.
Proof.
  repeat split; vm_compute; reflexivity.
Qed.

End Binary64Kalman.

(** C10. For every non-empty signal, [q >= 0] and [r > 0], the first
    element of the output of [kalman_filter] is the first element of the
    input: the estimate starts at the first observation, so the first
    innovation is zero. *)
Theorem kalman_filter_first_sample (signal : list R) (q r : R) :
  signal <> [] -> 0 <= q -> 0 < r ->
  exists out,
    kalman_filter signal q r = Some out /\ out !! 0%nat = signal !! 0%nat.
Proof.
  intros Hne Hq Hr. destruct signal as [| z0 rest]; [contradiction |].
  unfold kalman_filter, kalman_init, range. cbn [lookup list_lookup mbind option_bind].
  destruct (kalman_loop_recurrence q r (z0 :: rest) [] [] z0 1 Hq Hr Rlt_0_1 eq_refl)
    as [st [Hrun Hrec]].
  cbn [app length] in Hrun. cbn [length]. rewrite Hrun. cbn [mbind option_bind].
  exists (reconstructed st). split; [reflexivity |].
  rewrite Hrec. cbn. f_equal. ring.
Qed.

Lemma kalman_filter_first_sample_witness :
  exists out,
    kalman_filter [1; 3; 2] (1 / 10) 1 = Some out /\ out !! 0%nat = [1; 3; 2] !! 0%nat.
Proof.
  apply kalman_filter_first_sample; [discriminate | lra | lra].
Defined.

(** ** The moving average *)

Lemma np_correlate_valid_length (a v : list R) :
  length (np_correlate_valid a v) = (length a - length v + 1)%nat.
Proof. unfold np_correlate_valid, range. rewrite length_map, length_seq. reflexivity. Qed.

(** When the kernel is not empty and not longer than the array, the
    arguments are not swapped and nothing is raised. *)
Lemma np_convolve_valid_defined (a v : list R) :
  v <> [] -> (length v <= length a)%nat ->
  np_convolve_valid a v = Some (np_correlate_valid a (reverse v)).
Proof.
  intros Hv Hle. unfold np_convolve_valid.
  destruct (Nat.ltb_spec (length a) (length v)) as [Hlt | _]; [lia |].
  destruct a as [| x a]; [destruct v; [contradiction | cbn in Hle; lia] |].
  destruct v as [| y v]; [contradiction | reflexivity].
Qed.

Lemma np_pad_edge_defined (a : list R) (before after : nat) :
  a <> [] ->
  exists padded,
    np_pad_edge a before after = Some padded
    /\ length padded = (before + length a + after)%nat.
Proof.
  intros Ha. destruct a as [| first a]; [contradiction |].
  eexists; split; [reflexivity |].
  rewrite !length_app, !length_replicate. lia.
Qed.

Lemma np_pad_edge_zero (a : list R) : a <> [] -> np_pad_edge a 0 0 = Some a.
Proof.
  intros Ha. destruct a as [| first a]; [contradiction |].
  unfold np_pad_edge. cbn [replicate app]. rewrite app_nil_r. reflexivity.
Qed.

(** Correlating with a one-entry kernel scales every entry. *)
Lemma np_correlate_valid_single (a : list R) (c : R) :
  a <> [] ->
  np_correlate_valid a [c] = map (fun x => x * c + 0) a.
Proof.
  intros Ha. unfold np_correlate_valid, range. cbn [length].
  replace (length a - 1 + 1)%nat with (length a)
    by (destruct a; [contradiction | cbn; lia]).
  clear Ha. induction a as [| x a IH]; [reflexivity |].
  cbn [length seq map]. f_equal.
  rewrite <- fmap_S_seq, <- list_fmap_compose. exact IH.
Qed.

(** From a window size of one on, the moving average of a non-empty
    signal is the front of a correlation of the padded signal that has at
    least as many entries as the signal. *)
Lemma moving_average_correlation (signal : list R) (window_size : Z) :
  signal <> [] -> (1 <= window_size)%Z ->
  exists padded kernel,
    moving_average signal window_size
    = Some (take (length signal) (np_correlate_valid padded (reverse kernel)))
    /\ (length signal <= length (np_correlate_valid padded (reverse kernel)))%nat.
Proof.
  intros Hne Hw. unfold moving_average.
  destruct (Z.ltb_spec window_size 1) as [Hlt | _]; [lia |].
  set (padding := Z.to_nat (window_size `div` 2)).
  destruct (np_pad_edge_defined signal padding padding Hne) as [padded [Hpad Hlen]].
  rewrite Hpad. cbn [mbind option_bind].
  set (kernel := map (fun one => one / IZR window_size) (np_ones (Z.to_nat window_size))).
  assert (Hk : length kernel = Z.to_nat window_size).
  { unfold kernel, np_ones. rewrite length_map, length_replicate. reflexivity. }
  assert (Hn : (1 <= length signal)%nat)
    by (destruct signal; [contradiction | cbn; lia]).
  assert (Hhalf : (Z.to_nat window_size <= 2 * padding + 1)%nat).
  { unfold padding. pose proof (Z.div_mod window_size 2 ltac:(lia)) as Hdm.
    pose proof (Z.mod_pos_bound window_size 2 ltac:(lia)) as Hmod. lia. }
  exists padded, kernel.
  rewrite np_convolve_valid_defined.
  - split; [reflexivity |].
    rewrite np_correlate_valid_length, length_reverse. lia.
  - intros Hnil. rewrite Hnil in Hk. cbn in Hk. lia.
  - lia.
Qed.

Lemma moving_average_defined (signal : list R) (window_size : Z) :
  signal <> [] -> (1 <= window_size)%Z ->
  exists out,
    moving_average signal window_size = Some out
    /\ length out = length signal.
Proof.
  intros Hne Hw.
  destruct (moving_average_correlation signal window_size Hne Hw)
    as (padded & kernel & Hrun & Hlen).
  eexists. split; [exact Hrun |]. rewrite length_take. lia.
Qed.

(** C5. For every non-empty signal and every integer window size
    [window_size >= 1], odd or even, [moving_average] returns (and does not
    raise) an array of exactly the length of the input: the padded signal
    has [2 * (window_size // 2)] more entries, the valid convolution
    [window_size - 1] fewer, and the final slice cuts the one entry an
    even window leaves over. *)
Theorem moving_average_length (signal : list R) (window_size : Z) :
  signal <> [] -> (1 <= window_size)%Z ->
  exists out,
    moving_average signal window_size = Some out
    /\ length out = length signal.
Proof.
  intros Hne Hw.
  destruct (moving_average_correlation signal window_size Hne Hw)
    as (padded & kernel & Hrun & Hlen).
  exists (take (length signal) (np_correlate_valid padded (reverse kernel))).
  split; [exact Hrun |].
  rewrite length_take. apply Nat.min_l. exact Hlen.
Qed.

Lemma moving_average_length_witness :
  exists out,
    moving_average [1; 3; 2] 4 = Some out /\ length out = length [1; 3; 2].
Proof.
  apply moving_average_length; [discriminate | lia].
Defined.

(** C4.  A window of one sample returns every signal unchanged, and so
    does a window size below one.  A signal has at least one sample (the
    specification makes that a precondition of every reconstructor); the
    guard for window sizes below one returns even the empty array.  With
    a window of one the kernel is the single weight [1 / 1], and
    multiplying by it changes no sample, rounded or not. *)
Theorem moving_average_identity (signal : list R) (window_size : Z) :
  (window_size < 1)%Z \/ (window_size = 1%Z /\ signal <> []) ->
  moving_average signal window_size = Some signal.
Proof.
  intros [Hlt | [-> Hne]]; unfold moving_average.
  - destruct (Z.ltb_spec window_size 1) as [_ | Hge]; [reflexivity | lia].
  - destruct (Z.ltb_spec 1 1) as [Hlt | _]; [lia |].
    change (Z.to_nat (1 `div` 2)) with 0%nat. change (Z.to_nat 1) with 1%nat.
    rewrite (np_pad_edge_zero signal Hne).
    cbn [mbind option_bind np_ones replicate map].
    rewrite np_convolve_valid_defined;
      [| discriminate | destruct signal; [contradiction | cbn; lia]].
    cbn [mbind option_bind]. change (reverse [1 / 1]) with [1 / 1].
    rewrite (np_correlate_valid_single signal (1 / 1) Hne).
    rewrite take_ge by (rewrite length_map; lia).
    f_equal. rewrite <- (list_fmap_id signal) at 2.
    apply list_fmap_ext. intros _ x _. cbn. field.
Qed.

Lemma moving_average_identity_witness :
  moving_average [1; 3; 2] 1 = Some [1; 3; 2].
Proof.
  apply moving_average_identity. right. split; [reflexivity | discriminate].
Defined.

(** ** The metric engine *)

Import PerformanceMetrics.

Lemma np_sum_zeros (n : nat) : np_sum (replicate n 0) = 0.
Proof.
  induction n as [| n IH]; [reflexivity |].
  change (np_sum (replicate (S n) 0)) with (0 + np_sum (replicate n 0)).
  rewrite IH. lra.
Qed.

Lemma np_mean_zeros (n : nat) : (0 < n)%nat -> np_mean (replicate n 0) = Some 0.
Proof.
  intros Hn. destruct n as [| n]; [lia |].
  change (np_mean (replicate (S n) 0))
    with (Some (np_sum (replicate (S n) 0) / INR (length (replicate (S n) 0)))).
  rewrite np_sum_zeros. f_equal. apply Rdiv_0_l.
Qed.

(** An array minus itself is all zeros. *)
Lemma np_broadcast_minus_diag (a : list R) :
  np_broadcast Rminus a a = Some (replicate (length a) 0).
Proof.
  unfold np_broadcast. destruct (decide (length a = length a)) as [_ | Hne]; [| contradiction].
  f_equal. induction a as [| x a IH]; [reflexivity |].
  cbn [zip_with length replicate]. rewrite IH. f_equal. lra.
Qed.

Lemma np_square_zeros (n : nat) : np_square (replicate n 0) = replicate n 0.
Proof.
  unfold np_square. rewrite fmap_replicate. f_equal. lra.
Qed.

Lemma np_max_defined (a : list R) : a <> [] -> exists m, np_max a = Some m.
Proof. destruct a as [| x a]; [contradiction | intros _; eexists; reflexivity]. Qed.

Lemma np_mean_defined (a : list R) : a <> [] -> exists m, np_mean a = Some m.
Proof. destruct a as [| x a]; [contradiction | intros _; eexists; reflexivity]. Qed.

(** C3, as the code has it.  For every pair of non-empty signals of equal
    length whose candidate equals the reference entry by entry,
    [compute_all] returns a report (it does not raise) with MSE 0, bias 0,
    peak amplitude error 0 and SNR positive infinity. *)
Theorem compute_all_zero_residual (reference candidate : list R) :
  reference <> [] ->
  length candidate = length reference ->
  (forall i, candidate !! i = reference !! i) ->
  compute_all reference candidate
    = Some {| MSE := 0; SNR := PosInf; Peak_Error := 0; Bias := 0 |}.
Proof.
  intros Hne _ Heq. apply list_eq in Heq. subst candidate.
  assert (Hn : (0 < length reference)%nat)
    by (destruct reference; [contradiction | cbn; lia]).
  destruct (np_max_defined reference Hne) as [peak Hpeak].
  destruct (np_mean_defined (np_square reference)) as [power Hpower].
  { destruct reference; [contradiction | discriminate]. }
  unfold compute_all, mean_squared_error, signal_to_noise_ratio,
    peak_amplitude_error, reconstruction_bias.
  rewrite np_broadcast_minus_diag, Hpeak, Hpower. cbn [mbind option_bind].
  rewrite np_square_zeros, np_mean_zeros by exact Hn. cbn [mbind option_bind].
  destruct (Req_dec_T 0 0) as [_ | Hnz]; [| contradiction].
  cbn [mbind option_bind]. do 2 f_equal.
  rewrite Rminus_diag. apply Rabs_R0.
Qed.

Lemma compute_all_zero_residual_witness :
  compute_all [1; 3; 2] [1; 3; 2]
    = Some {| MSE := 0; SNR := PosInf; Peak_Error := 0; Bias := 0 |}.
Proof.
  apply compute_all_zero_residual; [discriminate | reflexivity | reflexivity].
Defined.

(** The empty pair has zero residual as well, and [compute_all] raises on
    it ([np.max] of an empty array is a ValueError): no report, no MSE. *)
Lemma compute_all_empty_pair :
  length (@nil R) = length (@nil R)
  /\ (forall i, (@nil R) !! i = (@nil R) !! i)
  /\ compute_all [] [] = None
  /\ mean_squared_error [] [] = None
  /\ np_max [] = None.
Proof. repeat split. Qed.

(** *** Facts used by the studies *)

Lemma np_broadcast_same_length (op : R -> R -> R) (a b : list R) :
  length a = length b -> np_broadcast op a b = Some (zip_with op a b).
Proof.
  intros Hlen. unfold np_broadcast.
  destruct (decide (length a = length b)); [reflexivity | contradiction].
Qed.

Lemma np_sum_cons (x : R) (a : list R) : np_sum (x :: a) = x + np_sum a.
Proof. reflexivity. Qed.

Lemma np_sum_square_nonneg (a : list R) : 0 <= np_sum (np_square a).
Proof.
  induction a as [| x a IH]; [cbn; lra |].
  change (np_square (x :: a)) with (x ^ 2 :: np_square a).
  rewrite np_sum_cons. pose proof (pow2_ge_0 x). lra.
Qed.

Lemma np_mean_value (a : list R) (m : R) :
  np_mean a = Some m -> a <> [] /\ m = np_sum a / INR (length a).
Proof.
  destruct a as [| x a]; [discriminate |].
  unfold np_mean. intros [= <-]. split; [discriminate | reflexivity].
Qed.

Lemma np_mean_nonempty (a : list R) :
  a <> [] -> np_mean a = Some (np_sum a / INR (length a)).
Proof. destruct a as [| x a]; [contradiction | reflexivity]. Qed.

Lemma np_mean_square_nonneg (a : list R) (m : R) :
  np_mean (np_square a) = Some m -> 0 <= m.
Proof.
  intros Hm. apply np_mean_value in Hm as [Hne ->].
  apply Rmult_le_pos; [apply np_sum_square_nonneg |].
  apply Rlt_le, Rinv_0_lt_compat, lt_0_INR.
  destruct (np_square a); [contradiction | cbn; lia].
Qed.

Lemma np_log10_nonneg_defined (x : R) : 0 <= x -> exists l, np_log10 x = Some l.
Proof.
  intros Hx. unfold np_log10.
  destruct (Rlt_dec 0 x); [eexists; reflexivity |].
  destruct (Req_dec_T x 0); [eexists; reflexivity | lra].
Qed.

(** On two non-empty arrays of one length every metric is defined, and
    the report carries the mean squared error. *)
Lemma compute_all_defined (reference candidate : list R) :
  reference <> [] -> length candidate = length reference ->
  exists report,
    compute_all reference candidate = Some report
    /\ mean_squared_error reference candidate = Some (MSE report).
Proof.
  intros Hne Hlen.
  assert (Hcand : candidate <> []).
  { intros ->. destruct reference; [contradiction | discriminate]. }
  assert (Hdiff : zip_with Rminus reference candidate <> []).
  { destruct reference, candidate; try contradiction; discriminate. }
  assert (Hdiff' : zip_with Rminus candidate reference <> []).
  { destruct reference, candidate; try contradiction; discriminate. }
  destruct (np_mean_defined (np_square (zip_with Rminus reference candidate)))
    as [mse Hmse].
  { destruct (zip_with Rminus reference candidate); [contradiction | discriminate]. }
  destruct (np_mean_defined (np_square reference)) as [power Hpower].
  { destruct reference; [contradiction | discriminate]. }
  destruct (np_max_defined reference Hne) as [peak Hpeak].
  destruct (np_max_defined candidate Hcand) as [peak' Hpeak'].
  destruct (np_mean_defined _ Hdiff') as [bias Hbias].
  assert (Hsnr : exists snr, signal_to_noise_ratio reference candidate = Some snr).
  { unfold signal_to_noise_ratio.
    rewrite Hpower, np_broadcast_same_length by lia. cbn [mbind option_bind].
    rewrite Hmse. cbn [mbind option_bind].
    destruct (Req_dec_T mse 0) as [_ | Hnz]; [eexists; reflexivity |].
    destruct (np_log10_nonneg_defined (power / mse)) as [l Hl].
    { pose proof (np_mean_square_nonneg _ _ Hpower).
      pose proof (np_mean_square_nonneg _ _ Hmse).
      apply Rmult_le_pos; [lra |]. apply Rlt_le, Rinv_0_lt_compat. lra. }
    rewrite Hl. eexists. reflexivity. }
  destruct Hsnr as [snr Hsnr].
  assert (Hm : mean_squared_error reference candidate = Some mse).
  { unfold mean_squared_error. rewrite np_broadcast_same_length by lia.
    exact Hmse. }
  exists {| MSE := mse; SNR := snr;
            Peak_Error := Rabs (peak - peak'); Bias := bias |}.
  split; [| exact Hm].
  unfold compute_all. rewrite Hm, Hsnr. cbn [mbind option_bind].
  unfold peak_amplitude_error, reconstruction_bias.
  rewrite Hpeak, Hpeak', np_broadcast_same_length by lia.
  cbn [mbind option_bind]. rewrite Hbias. reflexivity.
Qed.

Lemma reconstruction_bias_defined (reference candidate : list R) :
  reference <> [] -> length candidate = length reference ->
  exists bias, reconstruction_bias reference candidate = Some bias.
Proof.
  intros Hne Hlen. unfold reconstruction_bias.
  rewrite np_broadcast_same_length by lia. cbn [mbind option_bind].
  apply np_mean_defined.
  destruct reference, candidate; try contradiction; discriminate.
Qed.

(** ** The frequency-domain filter *)

(** *** Complex arithmetic *)

Lemma complex_eq (a b : complex) : re a = re b -> im a = im b -> a = b.
Proof. destruct a, b. cbn. intros -> ->. reflexivity. Qed.

Ltac complex_ring :=
  apply complex_eq; cbn [re im Cadd Cmul Cscale C0 Csum]; ring.

Lemma Cadd_0_l (a : complex) : Cadd C0 a = a.
Proof. complex_ring. Qed.

(** *** Finite sums *)

Lemma Csum_ext (f g : nat -> complex) (n : nat) :
  (forall k, (k < n)%nat -> f k = g k) -> Csum f n = Csum g n.
Proof.
  induction n as [| n IH]; intros Hfg; [reflexivity |].
  cbn [Csum]. rewrite IH by (intros k Hk; apply Hfg; lia).
  rewrite Hfg by lia. reflexivity.
Qed.

Lemma Csum_zero (n : nat) : Csum (fun _ => C0) n = C0.
Proof.
  induction n as [| n IH]; [reflexivity |].
  cbn [Csum]. rewrite IH. apply Cadd_0_l.
Qed.

(** *** The transform and its inverse *)

Lemma lookup_map_range {A : Type} (f : nat -> A) (n k : nat) :
  (k < n)%nat -> map f (range n) !! k = Some (f k).
Proof.
  intros Hk. unfold range. change (map f (seq 0 n)) with (f <$> seq 0 n).
  rewrite list_lookup_fmap, lookup_seq_lt by exact Hk. reflexivity.
Qed.

Lemma length_map_range {A : Type} (f : nat -> A) (n : nat) :
  length (map f (range n)) = n.
Proof. unfold range. rewrite length_map, length_seq. reflexivity. Qed.

(** *** Bin frequencies and the mask *)

Lemma fftfreq_length (n : nat) (d : R) (xf : list R) :
  (0 < n)%nat -> fftfreq n d = Some xf -> length xf = n.
Proof.
  intros Hn. unfold fftfreq.
  destruct (float_div 1 (INR n * d)) as [val |]; [| discriminate].
  cbn [mbind option_bind]. intros [= <-].
  unfold range. rewrite length_map, length_app, !length_map, !length_seq.
  pose proof (Nat.div_mod_eq n 2) as H1.
  pose proof (Nat.div_mod_eq (n - 1) 2) as H2.
  pose proof (Nat.mod_upper_bound n 2 ltac:(lia)) as H3.
  pose proof (Nat.mod_upper_bound (n - 1) 2 ltac:(lia)) as H4.
  change ((Nat.divmod (n - 1) 1 0 1).1) with ((n - 1) / 2)%nat.
  change ((Nat.divmod n 1 0 1).1) with (n / 2)%nat.
  lia.
Qed.

Lemma foldl_Rmax_bounds (rest : list R) (x : R) :
  x <= foldl Rmax x rest /\ (forall y, y ∈ rest -> y <= foldl Rmax x rest).
Proof.
  revert x. induction rest as [| z rest IH]; intros x.
  - cbn. split; [lra | intros y Hy; inversion Hy].
  - cbn [foldl]. destruct (IH (Rmax x z)) as [Hx Hrest].
    pose proof (Rmax_l x z). pose proof (Rmax_r x z).
    split; [lra |].
    intros y Hy. apply elem_of_cons in Hy as [-> | Hy]; [lra | auto].
Qed.


Lemma zero_above_length (xf : list R) (cutoff : R) (yf : list complex) :
  length xf = length yf -> length (zero_above xf cutoff yf) = length yf.
Proof.
  intros Hlen. unfold zero_above. rewrite length_zip_with. lia.
Qed.

Lemma fft_defined (x : list complex) :
  x <> [] -> exists y, fft x = Some y /\ length y = length x.
Proof.
  intros Hx. unfold fft.
  destruct (decide (length x = 0%nat)) as [Hz | _].
  - destruct x; [contradiction | discriminate].
  - eexists. split; [reflexivity | apply length_map_range].
Qed.

Lemma ifft_defined (y : list complex) :
  y <> [] -> exists x, ifft y = Some x /\ length x = length y.
Proof.
  intros Hy. unfold ifft.
  destruct (decide (length y = 0%nat)) as [Hz | _].
  - destruct y; [contradiction | discriminate].
  - eexists. split; [reflexivity | apply length_map_range].
Qed.

Lemma fftfreq_defined (n : nat) (d : R) :
  (0 < n)%nat -> d <> 0 -> exists xf, fftfreq n d = Some xf /\ length xf = n.
Proof.
  intros Hn Hd.
  assert (Hnd : INR n * d <> 0).
  { apply Rmult_integral_contrapositive_currified; [| exact Hd].
    apply not_0_INR. lia. }
  assert (Hdef : exists xf, fftfreq n d = Some xf).
  { unfold fftfreq. rewrite float_div_nonzero by exact Hnd.
    eexists. reflexivity. }
  destruct Hdef as [xf Hxf]. exists xf. split; [exact Hxf |].
  apply (fftfreq_length n d xf Hn Hxf).
Qed.

(** On a non-empty signal and with a non-zero sampling interval the
    filter is defined, and its output is as long as the signal. *)
Lemma fourier_filter_defined (signal : list R) (dt cutoff_freq : R) :
  signal <> [] -> dt <> 0 ->
  exists out,
    fourier_filter signal dt cutoff_freq = Some out
    /\ length out = length signal.
Proof.
  intros Hne Hdt.
  assert (Hn : (0 < length signal)%nat)
    by (destruct signal; [contradiction | cbn; lia]).
  destruct (fft_defined (np_complex signal)) as (yf & Hfft & Hyf).
  { destruct signal; [contradiction | discriminate]. }
  unfold np_complex in Hyf. rewrite length_map in Hyf.
  destruct (fftfreq_defined (length signal) dt Hn Hdt) as (xf & Hxf & Hlen).
  destruct (ifft_defined (zero_above xf cutoff_freq yf)) as (out & Hout & Hol).
  { intros Hnil. apply (f_equal length) in Hnil.
    rewrite zero_above_length in Hnil by lia. cbn in Hnil. lia. }
  rewrite zero_above_length in Hol by lia.
  unfold fourier_filter. rewrite Hfft. cbn [mbind option_bind].
  rewrite Hxf. cbn [mbind option_bind]. rewrite Hout. cbn [mbind option_bind].
  eexists. split; [reflexivity |].
  unfold np_real. rewrite length_map. lia.
Qed.




Section Binary64Fourier.
Import PrimFloat.


End Binary64Fourier.

(** ** The pulse model *)

Import SignalGenerator.

Lemma Int_part_IZR (z : Z) : Int_part (IZR z) = z.
Proof.
  unfold Int_part.
  rewrite <- (tech_up (IZR z) (z + 1)); [lia | |]; rewrite plus_IZR; lra.
Qed.

Lemma Rceil_IZR (z : Z) : Rceil (IZR z) = z.
Proof. unfold Rceil. rewrite <- opp_IZR, Int_part_IZR. lia. Qed.

(** [np.max] returns one of the entries. *)
Lemma foldl_Rmax_elem (rest : list R) (x : R) : foldl Rmax x rest ∈ x :: rest.
Proof.
  revert x. induction rest as [| z rest IH]; intros x; [left |].
  cbn [foldl]. specialize (IH (Rmax x z)).
  apply elem_of_cons in IH as [-> | IH]; [| right; right; exact IH].
  unfold Rmax. destruct (Rle_dec x z); [right; left | left].
Qed.

(** An entry that bounds all entries is what [np.max] returns. *)
Lemma np_max_attained (a : list R) (m : R) :
  m ∈ a -> (forall y, y ∈ a -> y <= m) -> np_max a = Some m.
Proof.
  intros Hin Hub. destruct a as [| x rest]; [inversion Hin |].
  cbn [np_max]. f_equal.
  pose proof (foldl_Rmax_elem rest x) as Helem.
  destruct (foldl_Rmax_bounds rest x) as [Hx Hrest].
  apply Rle_antisym; [apply Hub; exact Helem |].
  apply elem_of_cons in Hin as [-> | Hin]; auto.
Qed.

(** The sample times of the default time base. *)
Lemma default_time_base :
  init_fields 0 100 (1 / 10) 42
  = Some {| t_start := 0; t_end := 100; dt := 1 / 10;
            time := map (fun i => 0 + INR i * (1 / 10)) (range 1000);
            seed := 42 |}.
Proof.
  unfold init_fields, np_arange.
  destruct (Req_dec_T (1 / 10) 0) as [Hz | _]; [lra |].
  replace ((100 - 0) / (1 / 10)) with (IZR 1000) by lra.
  rewrite Rceil_IZR. reflexivity.
Qed.

Lemma gaussian_exponent_at_center (t0 sigma : R) :
  sigma <> 0 -> - (t0 - t0) ^ 2 / (2 * sigma ^ 2) = 0.
Proof. intros Hs. field. exact Hs. Qed.

Lemma gaussian_exponent_off_center (tm t0 sigma : R) :
  0 < sigma -> tm <> t0 -> - (tm - t0) ^ 2 / (2 * sigma ^ 2) < 0.
Proof.
  intros Hs Hne.
  replace (- (tm - t0) ^ 2 / (2 * sigma ^ 2))
    with (- ((tm - t0) ^ 2 / (2 * sigma ^ 2))) by (field; lra).
  apply Ropp_lt_gt_0_contravar. apply Rdiv_lt_0_compat; [| nra].
  assert (tm - t0 <> 0) by lra. nra.
Qed.

Lemma generate_gaussian_pulse_defined (self : t) (amplitude t0 sigma : R) :
  0 < sigma ->
  generate_gaussian_pulse self amplitude t0 sigma
  = Some (map (fun tm => amplitude * exp (- (tm - t0) ^ 2 / (2 * sigma ^ 2)))
              (time self)).
Proof.
  intros Hs. unfold generate_gaussian_pulse.
  destruct (Req_dec_T (2 * sigma ^ 2) 0) as [Hz | _]; [nra | reflexivity].
Qed.

(** C7, as the code has it.  For every generator and every pulse whose
    width lies between [10 ^ -150] and [10 ^ 150] (so that [2 * sigma ** 2]
    neither underflows to zero nor overflows) and whose center is one of
    the sample times, the pulse has the value [amplitude] at that sample:
    the exponent there is zero over the non-zero denominator, [exp] of it
    is 1, and [amplitude * 1] is [amplitude].  In particular the time base
    (0, 100, 0.1) has 1000 samples, and the pulse with amplitude 1, center
    50 and width 5 has maximum 1, attained at sample 500 and at no other
    sample. *)
Theorem generate_gaussian_pulse_peak :
  (forall (self : SignalGenerator.t) (amplitude t0 sigma : R) (i : nat),
      / 10 ^ 150 <= sigma <= 10 ^ 150 ->
      time self !! i = Some t0 ->
      exists pulse,
        generate_gaussian_pulse self amplitude t0 sigma = Some pulse
        /\ pulse !! i = Some amplitude)
  /\ (exists self pulse,
        init_fields 0 100 (1 / 10) 42 = Some self
        /\ length (time self) = 1000%nat
        /\ generate_gaussian_pulse self 1 50 5 = Some pulse
        /\ np_max pulse = Some 1
        /\ pulse !! 500%nat = Some 1
        /\ (forall j v, pulse !! j = Some v -> j <> 500%nat -> v < 1)).
Proof.
  split.
  - intros self amplitude t0 sigma i [Hlo _] Hi.
    assert (Hs : 0 < sigma).
    { apply Rlt_le_trans with (/ 10 ^ 150); [| exact Hlo].
      apply Rinv_0_lt_compat, pow_lt. lra. }
    rewrite generate_gaussian_pulse_defined by exact Hs.
    eexists. split; [reflexivity |].
    change (map ?f (time self)) with (f <$> time self).
    rewrite list_lookup_fmap, Hi. cbn [fmap option_fmap option_map]. f_equal.
    rewrite gaussian_exponent_at_center by lra. rewrite exp_0. ring.
  - set (f := fun tm : R => 1 * exp (- (tm - 50) ^ 2 / (2 * 5 ^ 2))).
    set (tb := fun i : nat => 0 + INR i * (1 / 10)).
    assert (Hpeak : f (tb 500%nat) = 1).
    { unfold f, tb. rewrite INR_IZR_INZ. change (Z.of_nat 500) with 500%Z.
      replace (0 + 500 * (1 / 10)) with 50 by lra.
      rewrite gaussian_exponent_at_center by lra. rewrite exp_0. ring. }
    assert (Hbelow : forall j, j <> 500%nat -> f (tb j) < 1).
    { intros j Hj. unfold f, tb.
      rewrite Rmult_1_l.
      apply Rlt_le_trans with (exp 0); [| rewrite exp_0; lra].
      apply exp_increasing.
      apply gaussian_exponent_off_center; [lra |].
      intros Heq. apply Hj. apply INR_eq.
      rewrite (INR_IZR_INZ 500). change (Z.of_nat 500) with 500%Z. lra. }
    eexists. exists (map f (map tb (range 1000))).
    split; [apply default_time_base |]. cbn [time].
    split; [apply length_map_range |].
    split; [apply generate_gaussian_pulse_defined; lra |].
    assert (Hlookup : forall j v,
               map f (map tb (range 1000)) !! j = Some v ->
               (j < 1000)%nat /\ v = f (tb j)).
    { intros j v Hv. rewrite map_map in Hv.
      assert (Hj : (j < 1000)%nat).
      { apply lookup_lt_Some in Hv. rewrite length_map_range in Hv. exact Hv. }
      rewrite lookup_map_range in Hv by exact Hj.
      injection Hv as <-. split; [exact Hj | reflexivity]. }
    assert (H500 : map f (map tb (range 1000)) !! 500%nat = Some 1).
    { rewrite map_map, lookup_map_range by lia. f_equal. exact Hpeak. }
    split; [| split; [exact H500 |]].
    + apply np_max_attained.
      * apply list_elem_of_lookup. exists 500%nat. exact H500.
      * intros y Hy. apply list_elem_of_lookup in Hy as [j Hj].
        destruct (Hlookup j y Hj) as [_ ->].
        destruct (decide (j = 500%nat)) as [-> | Hne]; [lra |].
        left. apply Hbelow. exact Hne.
    + intros j v Hv Hne. destruct (Hlookup j v Hv) as [_ ->].
      apply Hbelow. exact Hne.
Qed.

Lemma generate_gaussian_pulse_peak_witness :
  exists pulse,
    generate_gaussian_pulse
      {| t_start := 0; t_end := 1; dt := 1 / 2;
         time := [0; 1 / 2]; seed := 42 |}
      3 (1 / 2) 1 = Some pulse
    /\ pulse !! 1%nat = Some 3.
Proof.
  apply (proj1 generate_gaussian_pulse_peak); [| reflexivity].
  split.
  - apply Rle_trans with (/ 1); [| lra].
    apply Rinv_le_contravar; [lra |]. apply pow_R1_Rle. lra.
  - apply pow_R1_Rle. lra.
Defined.

Section Binary64Pulse.
Import PrimFloat.

(** The width [2 ^ -600] is positive, but [2 * sigma ** 2] underflows to
    zero in binary64.  At a sample equal to the center the argument of
    [np.exp] is then [-0.0 / 0.0], which is nan, and so is the sample of
    the pulse: not the amplitude. *)
Lemma gaussian_pulse_binary64_nan_at_center :
  (0 <? 0x1p-600)%float = true
  /\ (2 * (0x1p-600 * 0x1p-600) =? 0)%float = true
  /\ is_nan (Binary64.gaussian_exponent 50 50 0x1p-600) = true.
Proof.
  repeat split; vm_compute; reflexivity.
Qed.

End Binary64Pulse.

(** ** Dictionaries, the generator and the loops that draw *)

Lemma dict_get_set_eq {K V : Type} `{EqDecision K} (d : list (K * V)) (k : K) (v : V) :
  dict_get (dict_set d k v) k = Some v.
Proof.
  induction d as [| [k' v'] d IH]; cbn [dict_set dict_get].
  - destruct (decide (k = k)); [reflexivity | contradiction].
  - destruct (decide (k' = k)) as [Heq | Hne]; cbn [dict_get].
    + destruct (decide (k = k)); [reflexivity | contradiction].
    + destruct (decide (k' = k)); [contradiction | exact IH].
Qed.

Lemma dict_get_set_ne {K V : Type} `{EqDecision K} (d : list (K * V)) (k j : K) (v : V) :
  k <> j -> dict_get (dict_set d k v) j = dict_get d j.
Proof.
  intros Hkj. induction d as [| [k' v'] d IH]; cbn [dict_set dict_get].
  - destruct (decide (k = j)); [contradiction | reflexivity].
  - destruct (decide (k' = k)) as [-> | Hne]; cbn [dict_get].
    + destruct (decide (k = j)); [contradiction | reflexivity].
    + destruct (decide (k' = j)); [reflexivity | exact IH].
Qed.

Lemma rand_bind_run {G A B : Type} (c : Rand G A) (k : A -> Rand G B)
    (g g' : G) (a : A) :
  c g = Some (a, g') -> rand_bind c k g = k a g'.
Proof. intros Hc. unfold rand_bind. rewrite Hc. reflexivity. Qed.

Lemma rand_lift_run {G A : Type} (o : option A) (a : A) (g : G) :
  o = Some a -> rand_lift o g = Some (a, g).
Proof. intros ->. reflexivity. Qed.

Section RandomStateFacts.
Context {G : Type} `{RandomState G}.

Lemma standard_normals_length (n : nat) (g : G) :
  length (fst (standard_normals n g)) = n.
Proof.
  revert g. induction n as [| n IH]; intros g; [reflexivity |].
  cbn [standard_normals]. destruct (standard_normal g) as [z g1].
  specialize (IH g1). destruct (standard_normals n g1) as [zs g2].
  cbn in *. lia.
Qed.

(** A uniform draw from [[low, high)] with [low < high] is at least
    [low]. *)
Lemma np_random_uniform_run (low high : R) (g : G) :
  low <= high ->
  exists u g',
    np_random_uniform low high g = Some (u, g') /\ low <= u.
Proof.
  intros Hle. unfold np_random_uniform.
  pose proof (random_sample_range g) as Hrange.
  destruct (random_sample g) as [u g']. cbn [fst] in Hrange.
  eexists _, _. split; [reflexivity |]. nra.
Qed.

Lemma add_gaussian_noise_run (signal : list R) (sigma : R) (g : G) :
  0 <= sigma ->
  NoiseModel.add_gaussian_noise signal sigma g
  = Some (zip_with Rplus signal
            (map (fun z => 0 + sigma * z)
                 (fst (standard_normals (length signal) g))),
          skip_normals (length signal) g).
Proof.
  intros Hs. unfold NoiseModel.add_gaussian_noise, rand_bind, np_random_normal.
  destruct (Rlt_dec sigma 0) as [Hneg | _]; [lra |].
  unfold skip_normals.
  pose proof (standard_normals_length (length signal) g) as Hlen.
  destruct (standard_normals (length signal) g) as [zs g']. cbn [fst snd] in *.
  unfold rand_lift, np_broadcast.
  destruct (decide (length signal = length (map (fun z => 0 + sigma * z) zs)))
    as [_ | Hne]; [reflexivity |].
  rewrite length_map in Hne. lia.
Qed.
End RandomStateFacts.

(** ** The experiments object *)

Import Experiments.

Ltac rand_step H :=
  erewrite rand_bind_run; [| first [exact H | apply rand_lift_run; exact H]].

Section NoiseSweep.
Context {G : Type} `{RandomState G}.

(** What [Experiments()] builds, whatever the generator state before. *)
Lemma experiments_init (g0 : G) :
  Experiments.init g0
  = Some ({| gen := {| SignalGenerator.t_start := 0;
                       SignalGenerator.t_end := 100;
                       SignalGenerator.dt := 1 / 10;
                       SignalGenerator.time :=
                         map (fun i => 0 + INR i * (1 / 10)) (range 1000);
                       SignalGenerator.seed := 42 |};
             noise := {| NoiseModel.seed := 42 |} |},
          seed_state 42).
Proof.
  unfold Experiments.init, SignalGenerator.init, NoiseModel.init.
  unfold rand_bind at 1. unfold rand_bind at 1.
  rewrite (rand_lift_run _ _ g0 default_time_base).
  reflexivity.
Qed.

Lemma experiments_init_fields (g0 g1 : G) (self : Experiments.t) :
  Experiments.init g0 = Some (self, g1) ->
  SignalGenerator.time (gen self)
    = map (fun i => 0 + INR i * (1 / 10)) (range 1000)
  /\ SignalGenerator.dt (gen self) = 1 / 10.
Proof.
  rewrite experiments_init. intros Heq.
  assert (Hself : self
            = {| gen := {| SignalGenerator.t_start := 0;
                           SignalGenerator.t_end := 100;
                           SignalGenerator.dt := 1 / 10;
                           SignalGenerator.time :=
                             map (fun i => 0 + INR i * (1 / 10)) (range 1000);
                           SignalGenerator.seed := 42 |};
                 noise := {| NoiseModel.seed := 42 |} |}) by congruence.
  rewrite Hself. split; reflexivity.
Qed.

End NoiseSweep.


(** ** The event scaling study *)

Lemma generate_gaussian_pulse_nonzero_width (self : SignalGenerator.t)
    (amplitude t0 sigma : R) :
  sigma <> 0 ->
  SignalGenerator.generate_gaussian_pulse self amplitude t0 sigma
  = Some (map (fun tm => amplitude * exp (- (tm - t0) ^ 2 / (2 * sigma ^ 2)))
              (SignalGenerator.time self)).
Proof.
  intros Hs. unfold SignalGenerator.generate_gaussian_pulse.
  destruct (Req_dec_T (2 * sigma ^ 2) 0) as [Hz | _]; [| reflexivity].
  exfalso. apply Hs. nra.
Qed.

Section ScalingStudy.
Context {G : Type} `{RandomState G}.

(** A uniform draw with [low <= high] lies between the two. *)
Lemma np_random_uniform_between (low high : R) (g : G) :
  low <= high ->
  exists u g',
    np_random_uniform low high g = Some (u, g') /\ low <= u <= high.
Proof.
  intros Hle. unfold np_random_uniform.
  pose proof (random_sample_range g) as Hrange.
  destruct (random_sample g) as [u g']. cbn [fst] in Hrange.
  eexists _, _. split; [reflexivity |]. nra.
Qed.

Lemma event_batch_body_drawn (self : SignalGenerator.t)
    (amplitude_range t0_range sigma_range : R * R)
    (events : list (list R)) (i : nat) (g : G) :
  fst amplitude_range <= snd amplitude_range ->
  fst t0_range <= snd t0_range ->
  0 < fst sigma_range <= snd sigma_range ->
  exists row g',
    SignalGenerator.event_batch_body self amplitude_range t0_range sigma_range
      events i g
    = Some (<[i := row]> events, g')
    /\ drawn_pulse self amplitude_range t0_range sigma_range row.
Proof.
  intros Ha Ht Hs. unfold SignalGenerator.event_batch_body.
  destruct (np_random_uniform_between _ _ g Ha) as (a & g1 & Hda & Har).
  destruct (np_random_uniform_between _ _ g1 Ht) as (t0 & g2 & Hdt & Htr).
  destruct (np_random_uniform_between (fst sigma_range) (snd sigma_range) g2)
    as (s & g3 & Hds & Hsr); [lra |].
  assert (Hpulse := generate_gaussian_pulse_nonzero_width self a t0 s ltac:(lra)).
  rand_step Hda. rand_step Hdt. rand_step Hds. rand_step Hpulse.
  eexists _, g3. split; [reflexivity |].
  exists a, t0, s. auto.
Qed.

Lemma event_batch_rows (self : SignalGenerator.t)
    (amplitude_range t0_range sigma_range : R * R)
    (m k : nat) (events : list (list R)) (g : G) :
  fst amplitude_range <= snd amplitude_range ->
  fst t0_range <= snd t0_range ->
  0 < fst sigma_range <= snd sigma_range ->
  length events = (k + m)%nat ->
  (forall j row, (j < k)%nat -> events !! j = Some row ->
                 drawn_pulse self amplitude_range t0_range sigma_range row) ->
  exists events' g',
    for_each_rand
      (SignalGenerator.event_batch_body self amplitude_range t0_range sigma_range)
      (seq k m) events g
    = Some (events', g')
    /\ length events' = (k + m)%nat
    /\ (forall j row, events' !! j = Some row ->
                      drawn_pulse self amplitude_range t0_range sigma_range row).
Proof.
  intros Ha Ht Hs. revert k events g.
  induction m as [| m IH]; intros k events g Hlen Hdone.
  - exists events, g. split; [reflexivity |]. split; [exact Hlen |].
    intros j row Hj. apply (Hdone j row); [| exact Hj].
    apply lookup_lt_Some in Hj. lia.
  - destruct (event_batch_body_drawn self amplitude_range t0_range sigma_range
                events k g Ha Ht Hs) as (row & g1 & Hbody & Hrow).
    destruct (IH (S k) (<[k := row]> events) g1) as (events' & g' & Hloop & Hl & Hall).
    + rewrite length_insert. lia.
    + intros j r Hj Hr. destruct (decide (j = k)) as [-> | Hne].
      * rewrite list_lookup_insert_eq in Hr by lia. congruence.
      * rewrite list_lookup_insert_ne in Hr by congruence.
        apply (Hdone j r); [lia | exact Hr].
    + exists events', g'. split; [| split; [lia | exact Hall]].
      cbn [seq for_each_rand]. rand_step Hbody. exact Hloop.
Qed.


(** One event of a batch: three uniform draws, then a pulse as long as
    the time base. *)
Lemma event_batch_body_run (self : SignalGenerator.t)
    (events : list (list R)) (i : nat) (g : G) :
  exists pulse g',
    SignalGenerator.event_batch_body self (8 / 10, 12 / 10) (40, 60) (3, 7)
      events i g
    = Some (<[i := pulse]> events, g')
    /\ length pulse = length (SignalGenerator.time self).
Proof.
  unfold SignalGenerator.event_batch_body. cbn [fst snd].
  destruct (np_random_uniform_run (8 / 10) (12 / 10) g) as (a & g1 & Ha & _); [lra |].
  destruct (np_random_uniform_run 40 60 g1) as (t0 & g2 & Ht & _); [lra |].
  destruct (np_random_uniform_run 3 7 g2) as (s & g3 & Hs & Hs3); [lra |].
  rand_step Ha. rand_step Ht. rand_step Hs.
  rand_step (generate_gaussian_pulse_defined self a t0 s ltac:(lra)).
  eexists _, g3. split; [reflexivity |]. apply length_map.
Qed.

Lemma event_batch_loop (self : SignalGenerator.t) (indices : list nat)
    (events : list (list R)) (g : G) :
  Forall (fun ev => length ev = length (SignalGenerator.time self)) events ->
  exists events' g',
    for_each_rand
      (SignalGenerator.event_batch_body self (8 / 10, 12 / 10) (40, 60) (3, 7))
      indices events g
    = Some (events', g')
    /\ length events' = length events
    /\ Forall (fun ev => length ev = length (SignalGenerator.time self)) events'.
Proof.
  revert events g. induction indices as [| i indices IH]; intros events g Hall.
  - exists events, g. auto.
  - destruct (event_batch_body_run self events i g) as (pulse & g1 & Hbody & Hlen).
    destruct (IH (<[i := pulse]> events) g1) as (events' & g' & Hloop & Hl & Hall').
    { apply Forall_insert; assumption. }
    exists events', g'. split; [| split; [| exact Hall']].
    + cbn [for_each_rand]. rand_step Hbody. exact Hloop.
    + rewrite Hl. apply length_insert.
Qed.

(** A batch of [n] events: [n] rows, each as long as the time base. *)
Lemma generate_event_batch_run (self : SignalGenerator.t) (n : nat) (g : G) :
  exists events g',
    SignalGenerator.generate_event_batch self n (8 / 10, 12 / 10) (40, 60) (3, 7) g
    = Some (events, g')
    /\ length events = n
    /\ Forall (fun ev => length ev = length (SignalGenerator.time self)) events.
Proof.
  unfold SignalGenerator.generate_event_batch.
  destruct (event_batch_loop self (range n)
              (replicate n (np_zeros (length (SignalGenerator.time self)))) g)
    as (events & g' & Hloop & Hlen & Hall).
  { apply Forall_replicate. unfold np_zeros. apply length_replicate. }
  exists events, g'. split; [exact Hloop |]. split; [| exact Hall].
  rewrite Hlen. apply length_replicate.
Qed.

(** One pass of the inner loop on a non-empty event. *)
Lemma event_body_run (clean_events : list (list R)) (bias_ma bias_kf : list R)
    (i : nat) (clean : list R) (g : G) :
  clean_events !! i = Some clean -> clean <> [] ->
  exists noisy b_ma b_kf g',
    event_body clean_events (bias_ma, bias_kf) i g
    = Some ((bias_ma ++ [b_ma], bias_kf ++ [b_kf]), g')
    /\ length noisy = length clean
    /\ event_biases clean noisy b_ma b_kf.
Proof.
  intros Hi Hne.
  set (noisy := zip_with Rplus clean
                  (map (fun z => 0 + 1 / 5 * z)
                       (fst (standard_normals (length clean) g)))).
  assert (Hnl : length noisy = length clean).
  { unfold noisy. rewrite length_zip_with, length_map, standard_normals_length. lia. }
  assert (Hnn : noisy <> []).
  { intros Hnil. rewrite Hnil in Hnl. destruct clean; [contradiction | discriminate]. }
  destruct (moving_average_defined noisy default_window_size Hnn) as (f_ma & Hma & Hlma).
  { unfold default_window_size. lia. }
  destruct (kalman_filter_defined noisy default_process_noise
              default_measurement_noise Hnn) as (f_kf & Hkf & Hlkf);
    [unfold default_process_noise; lra | unfold default_measurement_noise; lra |].
  destruct (reconstruction_bias_defined clean f_ma Hne) as [b_ma Hbma]; [lia |].
  destruct (reconstruction_bias_defined clean f_kf Hne) as [b_kf Hbkf]; [lia |].
  exists noisy, b_ma, b_kf, (skip_normals (length clean) g).
  split; [| split; [exact Hnl |]].
  - unfold event_body. rand_step Hi.
    rand_step (add_gaussian_noise_run clean (1 / 5) g ltac:(lra)).
    fold noisy. rand_step Hma. rand_step Hkf. rand_step Hbma. rand_step Hbkf.
    reflexivity.
  - exists f_ma, f_kf. auto.
Qed.

Lemma per_event_biases_cons (clean noisy : list R) (b_ma b_kf : R)
    (events : list (list R * list R)) (bias_ma bias_kf : list R) :
  length noisy = length clean ->
  event_biases clean noisy b_ma b_kf ->
  per_event_biases events bias_ma bias_kf ->
  per_event_biases ((clean, noisy) :: events) (b_ma :: bias_ma) (b_kf :: bias_kf).
Proof.
  intros Hlen Hev (Hl1 & Hl2 & Hall). split; [cbn; lia |]. split; [cbn; lia |].
  intros [| i] c n Hi.
  - injection Hi as <- <-. split; [exact Hlen |]. exists b_ma, b_kf. auto.
  - apply (Hall i c n Hi).
Qed.

(** The inner loop over the events [i, ..., i + m - 1]: both lists grow
    by the biases of these events, in order. *)
Lemma event_loop (clean_events : list (list R)) (m i : nat)
    (bias_ma bias_kf : list R) (g : G) :
  (i + m <= length clean_events)%nat ->
  Forall (fun ev => ev <> []) clean_events ->
  exists events new_ma new_kf g',
    for_each_rand (event_body clean_events) (seq i m) (bias_ma, bias_kf) g
    = Some ((bias_ma ++ new_ma, bias_kf ++ new_kf), g')
    /\ length events = m
    /\ per_event_biases events new_ma new_kf.
Proof.
  intros Hlen Hne. revert i bias_ma bias_kf g Hlen.
  induction m as [| m IH]; intros i bias_ma bias_kf g Hlen.
  - exists [], [], [], g. rewrite !app_nil_r.
    split; [reflexivity |]. split; [reflexivity |].
    split; [reflexivity |]. split; [reflexivity |].
    intros k c n Hk. discriminate.
  - destruct (lookup_lt_is_Some_2 clean_events i) as [clean Hi]; [lia |].
    assert (Hcl : clean <> []).
    { rewrite Forall_forall in Hne. apply Hne.
      apply list_elem_of_lookup. eauto. }
    destruct (event_body_run clean_events bias_ma bias_kf i clean g Hi Hcl)
      as (noisy & b_ma & b_kf & g1 & Hbody & Hnl & Hev).
    destruct (IH (S i) (bias_ma ++ [b_ma]) (bias_kf ++ [b_kf]) g1)
      as (events & new_ma & new_kf & g' & Hloop & Hel & Hper); [lia |].
    exists ((clean, noisy) :: events), (b_ma :: new_ma), (b_kf :: new_kf), g'.
    split; [| split; [cbn; lia |]].
    + cbn [seq for_each_rand]. rand_step Hbody.
      rewrite Hloop, <- !app_assoc. reflexivity.
    + apply per_event_biases_cons; assumption.
Qed.

(** One pass of the inner loop, with the noisy signal and the generator
    state written out. *)
Lemma event_body_scored (clean_events : list (list R)) (bias_ma bias_kf : list R)
    (i : nat) (clean : list R) (g : G) :
  clean_events !! i = Some clean -> clean <> [] ->
  exists b_ma b_kf,
    event_body clean_events (bias_ma, bias_kf) i g
    = Some ((bias_ma ++ [b_ma], bias_kf ++ [b_kf]),
            skip_normals (length clean) g)
    /\ event_biases clean (study_noisy (length clean) g 0 clean) b_ma b_kf.
Proof.
  intros Hi Hne.
  set (noisy := study_noisy (length clean) g 0 clean).
  assert (Hnl : length noisy = length clean).
  { unfold noisy, study_noisy, block_draws.
    rewrite length_zip_with, length_map, standard_normals_length. lia. }
  assert (Hnn : noisy <> []).
  { intros Hnil. rewrite Hnil in Hnl. destruct clean; [contradiction | discriminate]. }
  destruct (moving_average_defined noisy default_window_size Hnn) as (f_ma & Hma & Hlma).
  { unfold default_window_size. lia. }
  destruct (kalman_filter_defined noisy default_process_noise
              default_measurement_noise Hnn) as (f_kf & Hkf & Hlkf);
    [unfold default_process_noise; lra | unfold default_measurement_noise; lra |].
  destruct (reconstruction_bias_defined clean f_ma Hne) as [b_ma Hbma]; [lia |].
  destruct (reconstruction_bias_defined clean f_kf Hne) as [b_kf Hbkf]; [lia |].
  exists b_ma, b_kf. split.
  - unfold event_body. rand_step Hi.
    rand_step (add_gaussian_noise_run clean (1 / 5) g ltac:(lra)).
    change (zip_with Rplus clean _) with noisy.
    rand_step Hma. rand_step Hkf. rand_step Hbma. rand_step Hbkf.
    reflexivity.
  - exists f_ma, f_kf. auto.
Qed.

(** The inner loop over the events [i, ..., i + m - 1] of a batch whose
    rows all have [n] samples: event [i + j] is scored against the noise
    of the [j]-th block of draws, and the generator has then given [m]
    blocks. *)
Lemma event_loop_scored (clean_events : list (list R)) (n m i : nat)
    (bias_ma bias_kf : list R) (g : G) :
  (i + m <= length clean_events)%nat ->
  Forall (fun ev => length ev = n) clean_events -> (0 < n)%nat ->
  exists new_ma new_kf,
    for_each_rand (event_body clean_events) (seq i m) (bias_ma, bias_kf) g
    = Some ((bias_ma ++ new_ma, bias_kf ++ new_kf),
            Nat.iter m (skip_normals n) g)
    /\ length new_ma = m /\ length new_kf = m
    /\ forall j clean,
         clean_events !! (i + j)%nat = Some clean -> (j < m)%nat ->
         exists b_ma b_kf,
           new_ma !! j = Some b_ma /\ new_kf !! j = Some b_kf
           /\ event_biases clean (study_noisy n g j clean) b_ma b_kf.
Proof.
  intros Hlen Hall Hn. revert i bias_ma bias_kf g Hlen.
  induction m as [| m IH]; intros i bias_ma bias_kf g Hlen.
  - exists [], []. rewrite !app_nil_r.
    split; [reflexivity |]. split; [reflexivity |]. split; [reflexivity |].
    intros j clean _ Hj. lia.
  - destruct (lookup_lt_is_Some_2 clean_events i) as [clean Hi]; [lia |].
    assert (Hcl : length clean = n).
    { rewrite Forall_forall in Hall. apply Hall, list_elem_of_lookup. eauto. }
    assert (Hne : clean <> []) by (intros ->; cbn in Hcl; lia).
    destruct (event_body_scored clean_events bias_ma bias_kf i clean g Hi Hne)
      as (b_ma & b_kf & Hbody & Hev).
    rewrite Hcl in Hbody, Hev.
    destruct (IH (S i) (bias_ma ++ [b_ma]) (bias_kf ++ [b_kf])
                (skip_normals n g))
      as (new_ma & new_kf & Hloop & Hl1 & Hl2 & Hrest); [lia |].
    exists (b_ma :: new_ma), (b_kf :: new_kf).
    split; [| split; [cbn; lia | split; [cbn; lia |]]].
    + cbn [seq for_each_rand]. rand_step Hbody.
      rewrite Hloop, <- !app_assoc, Nat.iter_succ_r. reflexivity.
    + intros [| j] c Hc Hj.
      * rewrite Nat.add_0_r in Hc. assert (c = clean) by congruence. subst c.
        exists b_ma, b_kf. auto.
      * destruct (Hrest j c) as (b1 & b2 & Hb1 & Hb2 & Hev');
          [replace (S i + j)%nat with (i + S j)%nat by lia; exact Hc | lia |].
        exists b1, b2. split; [exact Hb1 |]. split; [exact Hb2 |].
        unfold study_noisy, block_draws in *.
        rewrite Nat.iter_succ_r. exact Hev'.
Qed.

(** The batch of the study: its rows are pulses with parameters in the
    default ranges. *)
Lemma study_batch (self : SignalGenerator.t) (count : nat) (g : G) :
  exists clean_events g_b,
    SignalGenerator.generate_event_batch self count
      (8 / 10, 12 / 10) (40, 60) (3, 7) g
    = Some (clean_events, g_b)
    /\ length clean_events = count
    /\ Forall (study_pulse (SignalGenerator.time self)) clean_events
    /\ Forall (fun ev => length ev = length (SignalGenerator.time self))
         clean_events.
Proof.
  unfold SignalGenerator.generate_event_batch, range.
  destruct (event_batch_rows self (8 / 10, 12 / 10) (40, 60) (3, 7) count 0
              (replicate count (np_zeros (length (SignalGenerator.time self)))) g)
    as (events & g_b & Hrun & Hlen & Hall); cbn [fst snd]; try lra.
  - apply length_replicate.
  - intros j row Hj. lia.
  - exists events, g_b. split; [exact Hrun |]. split; [exact Hlen |].
    assert (Hrows : forall row, row ∈ events ->
              study_pulse (SignalGenerator.time self) row).
    { intros row Hrow. apply list_elem_of_lookup in Hrow as [j Hj].
      destruct (Hall j row Hj) as (a & t0 & s & Ha & Ht & Hs & Hpulse).
      cbn [fst snd] in *.
      rewrite generate_gaussian_pulse_nonzero_width in Hpulse by lra.
      exists a, t0, s. split; [exact Ha |]. split; [exact Ht |].
      split; [exact Hs | congruence]. }
    split; apply Forall_forall; intros row Hrow.
    + apply Hrows, Hrow.
    + destruct (Hrows row Hrow) as (a & t0 & s & _ & _ & _ & ->).
      apply length_map.
Qed.

(** One pass of the outer loop: the entry stored under [str count] is the
    one of a pass from the state the loop was in. *)
Lemma scaling_body_scored (self : Experiments.t)
    (results : list (string * ScalingEntry)) (count : nat) (g : G) :
  SignalGenerator.time (gen self) <> [] ->
  exists e g',
    scaling_body self results count g
    = Some (dict_set results (str count) e, g')
    /\ study_pass self count g e.
Proof.
  intros Htime.
  destruct (study_batch (gen self) count g)
    as (clean_events & g_b & Hbatch & Hlen & Hpulses & Hrows).
  assert (Hn : (0 < length (SignalGenerator.time (gen self)))%nat).
  { destruct (SignalGenerator.time (gen self)); [contradiction | cbn; lia]. }
  destruct (event_loop_scored clean_events
              (length (SignalGenerator.time (gen self))) count 0 [] [] g_b
              ltac:(lia) Hrows Hn)
    as (bias_ma & bias_kf & Hloop & Hl1 & Hl2 & Hev).
  cbn [app] in Hloop.
  eexists (scaling_entry bias_ma bias_kf), _. split.
  - unfold scaling_body. rand_step Hbatch. unfold range. rand_step Hloop.
    reflexivity.
  - exists clean_events, g_b, bias_ma, bias_kf.
    split; [exact Hbatch |]. split; [exact Hlen |]. split; [exact Hpulses |].
    split; [| reflexivity].
    split; [lia |]. split; [lia |].
    intros i clean Hi. apply (Hev i clean Hi).
    apply lookup_lt_Some in Hi. lia.
Qed.

(** The outer loop: the other keys are kept, and under the string of
    every count of the list stands the entry of the pass made at the last
    place of that count, from the state the passes before it left. *)
Lemma scaling_loop_scored (self : Experiments.t) (counts : list nat)
    (results : list (string * ScalingEntry)) (g : G) :
  SignalGenerator.time (gen self) <> [] ->
  exists results' g',
    for_each_rand (scaling_body self) counts results g = Some (results', g')
    /\ (forall key, (forall count, count ∈ counts -> key <> str count) ->
          dict_get results' key = dict_get results key)
    /\ (forall count, count ∈ counts ->
          exists k results_k g_k e,
            counts !! k = Some count
            /\ (forall j, (k < j)%nat -> counts !! j <> Some count)
            /\ for_each_rand (scaling_body self) (take k counts) results g
               = Some (results_k, g_k)
            /\ dict_get results' (str count) = Some e
            /\ study_pass self count g_k e).
Proof.
  intros Htime. revert results g.
  induction counts as [| c counts IH]; intros results g.
  - exists results, g. split; [reflexivity |]. split; [reflexivity |].
    intros count Hc. inversion Hc.
  - destruct (scaling_body_scored self results c g Htime)
      as (e1 & g1 & Hbody & Hpass).
    destruct (IH (dict_set results (str c) e1) g1)
      as (results' & g' & Hloop & Hkeep & Hall).
    exists results', g'. split; [| split].
    + cbn [for_each_rand]. rand_step Hbody. exact Hloop.
    + intros key Hkey. rewrite Hkeep.
      * apply dict_get_set_ne. intros Heq. apply (Hkey c); [left | congruence].
      * intros count Hc. apply Hkey. right. exact Hc.
    + intros count Hcount.
      destruct (decide (count ∈ counts)) as [Hin | Hnin].
      * destruct (Hall count Hin) as (k & results_k & g_k & e & Hk & Hlast & Hpre & Hget & He).
        exists (S k), results_k, g_k, e.
        split; [exact Hk |]. split; [| split; [| split; [exact Hget | exact He]]].
        -- intros [| j] Hj; [lia |]. apply Hlast. lia.
        -- cbn [take for_each_rand]. rand_step Hbody. exact Hpre.
      * apply elem_of_cons in Hcount as [-> | Hin]; [| contradiction].
        exists 0%nat, results, g, e1.
        split; [reflexivity |]. split; [| split; [reflexivity | split; [| exact Hpass]]].
        -- intros [| j] Hj; [lia |]. cbn [lookup list_lookup]. intros Hlk.
           apply Hnin, list_elem_of_lookup. eauto.
        -- rewrite Hkeep; [apply dict_get_set_eq |].
           intros count Hc Heq. apply (inj pretty) in Heq. subst count.
           contradiction.
Qed.
End ScalingStudy.

Section ScalingStudyLoop.
Context {G : Type} `{RandomState G}.

(** One event count: a batch is drawn, every event is scored, and the
    entry of the two bias lists is stored under [str count]. *)
Lemma scaling_body_run (self : Experiments.t)
    (results : list (string * ScalingEntry)) (count : nat) (g : G) :
  SignalGenerator.time (gen self) <> [] ->
  exists e g',
    scaling_body self results count g
    = Some (dict_set results (str count) e, g')
    /\ scaling_entry_of count e.
Proof.
  intros Htime.
  destruct (generate_event_batch_run (gen self) count g)
    as (clean_events & g1 & Hbatch & Hlen & Hall).
  assert (Hne : Forall (fun ev : list R => ev <> []) clean_events).
  { eapply Forall_impl; [exact Hall |]. cbn. intros ev Hev ->.
    destruct (SignalGenerator.time (gen self)); [contradiction | discriminate]. }
  destruct (event_loop clean_events count 0 [] [] g1 ltac:(lia) Hne)
    as (events & bias_ma & bias_kf & g' & Hloop & Hel & Hper).
  cbn [app] in Hloop.
  exists (scaling_entry bias_ma bias_kf), g'. split.
  - unfold scaling_body. rand_step Hbatch. unfold range. rand_step Hloop.
    reflexivity.
  - exists events, bias_ma, bias_kf. auto.
Qed.

(** The outer loop: every count of the list ends up with an entry, and
    every entry that was not there before is the entry of a count of
    the list stored under its string. *)
Lemma scaling_loop (self : Experiments.t) (counts : list nat)
    (results : list (string * ScalingEntry)) (g : G) :
  SignalGenerator.time (gen self) <> [] ->
  exists results' g',
    for_each_rand (scaling_body self) counts results g = Some (results', g')
    /\ (forall key, is_Some (dict_get results key) ->
          is_Some (dict_get results' key))
    /\ (forall count, count ∈ counts -> is_Some (dict_get results' (str count)))
    /\ (forall key e, dict_get results' key = Some e ->
          dict_get results key = Some e
          \/ exists count, count ∈ counts /\ key = str count
                           /\ scaling_entry_of count e).
Proof.
  intros Htime. revert results g.
  induction counts as [| count counts IH]; intros results g.
  - exists results, g. split; [reflexivity |]. split; [auto |].
    split; [intros c Hc; inversion Hc | auto].
  - destruct (scaling_body_run self results count g Htime)
      as (e1 & g1 & Hbody & Hentry).
    destruct (IH (dict_set results (str count) e1) g1)
      as (results' & g' & Hloop & Hkeep & Hall & Hfrom).
    assert (Hstep : forall key, is_Some (dict_get results key) ->
              is_Some (dict_get (dict_set results (str count) e1) key)).
    { intros key Hkey. destruct (decide (str count = key)) as [<- | Hne].
      - rewrite dict_get_set_eq. eauto.
      - rewrite dict_get_set_ne by exact Hne. exact Hkey. }
    exists results', g'. split; [| split; [| split]].
    + cbn [for_each_rand]. rand_step Hbody. exact Hloop.
    + intros key Hkey. apply Hkeep, Hstep, Hkey.
    + intros c Hc. apply elem_of_cons in Hc as [-> | Hc].
      * apply Hkeep. rewrite dict_get_set_eq. eauto.
      * apply Hall, Hc.
    + intros key e He. destruct (Hfrom key e He) as [Hprev | (c & Hc & -> & Hent)].
      * destruct (decide (str count = key)) as [<- | Hne].
        -- rewrite dict_get_set_eq in Hprev. injection Hprev as <-.
           right. exists count. split; [left | auto].
        -- rewrite dict_get_set_ne in Hprev by exact Hne. left. exact Hprev.
      * right. exists c. split; [right; exact Hc | auto].
Qed.
End ScalingStudyLoop.

Lemma take_cap (l : list R) : take 100 l = take (length l `min` 100) l.
Proof.
  destruct (Nat.le_gt_cases (length l) 100) as [Hle | Hgt].
  - rewrite Nat.min_l by exact Hle. rewrite !take_ge by lia. reflexivity.
  - rewrite Nat.min_r by lia. reflexivity.
Qed.

(** C9. For every list of event counts and every count [N] in it, the
    study of a fresh [Experiments] object completes and stores under the
    key [str N] the entry of the pass made at the last place [k] of [N]
    in the list.  That pass starts from the generator state [g_k] that
    the passes of the earlier counts left.  It draws the batch
    [clean_events] of [N] Gaussian pulses, each on the 1000 sample time
    base with parameters in the default ranges, and then, event by event,
    one block of 1000 unit normal draws for the noise of standard
    deviation 0.2.  The lists [bias_ma] and [bias_kf] hold the bias of
    the moving average and of the recursive estimator for every event of
    the batch.  The entry holds, for each method, the mean and the
    standard deviation over all [N] of these biases, and as [MA_biases]
    and [KF_biases] the first [min N 100] of them, so never more than a
    hundred. *)
Theorem event_scaling_study_entry {G : Type} `{RandomState G} (g0 g1 g : G)
    (self : Experiments.t) (event_counts : list nat) (N : nat) :
  Experiments.init g0 = Some (self, g1) ->
  N ∈ event_counts ->
  exists results g' k results_k g_k clean_events g_b bias_ma bias_kf e,
    run_event_scaling_study self event_counts g = Some (results, g')
    /\ event_counts !! k = Some N
    /\ (forall j, (k < j)%nat -> event_counts !! j <> Some N)
    /\ run_event_scaling_study self (take k event_counts) g
       = Some (results_k, g_k)
    /\ SignalGenerator.generate_event_batch (gen self) N
         (8 / 10, 12 / 10) (40, 60) (3, 7) g_k
       = Some (clean_events, g_b)
    /\ length clean_events = N
    /\ length (SignalGenerator.time (gen self)) = 1000%nat
    /\ Forall (study_pulse (SignalGenerator.time (gen self))) clean_events
    /\ study_biases clean_events 1000 g_b bias_ma bias_kf
    /\ dict_get results (str N) = Some e
    /\ MA_bias_mean e = np_mean bias_ma
    /\ MA_bias_std e = np_std bias_ma
    /\ KF_bias_mean e = np_mean bias_kf
    /\ KF_bias_std e = np_std bias_kf
    /\ MA_biases e = take (N `min` 100) bias_ma
    /\ KF_biases e = take (N `min` 100) bias_kf
    /\ length (MA_biases e) = (N `min` 100)%nat
    /\ length (KF_biases e) = (N `min` 100)%nat.
Proof.
  intros Hinit HN.
  destruct (experiments_init_fields g0 g1 self Hinit) as [Htb _].
  assert (Hsamples : length (SignalGenerator.time (gen self)) = 1000%nat)
    by (rewrite Htb; apply length_map_range).
  assert (Htime : SignalGenerator.time (gen self) <> []).
  { intros Hnil. rewrite Hnil in Hsamples. discriminate. }
  destruct (scaling_loop_scored self event_counts [] g Htime)
    as (results & g' & Hloop & _ & Hall).
  destruct (Hall N HN) as (k & results_k & g_k & e & Hk & Hlast & Hpre & Hget & Hpass).
  destruct Hpass as (clean_events & g_b & bias_ma & bias_kf & Hbatch & Hlen
                     & Hpulses & Hbiases & ->).
  rewrite Hsamples in Hbiases.
  pose proof Hbiases as (Hl1 & Hl2 & _).
  exists results, g', k, results_k, g_k, clean_events, g_b, bias_ma, bias_kf,
    (scaling_entry bias_ma bias_kf).
  cbn [scaling_entry MA_bias_mean MA_bias_std KF_bias_mean KF_bias_std
       MA_biases KF_biases].
  rewrite (take_cap bias_ma), (take_cap bias_kf), Hl1, Hl2, Hlen.
  rewrite !length_take, Hl1, Hl2, Hlen.
  split; [exact Hloop |]. split; [exact Hk |]. split; [exact Hlast |].
  split; [exact Hpre |]. split; [exact Hbatch |]. split; [reflexivity |].
  split; [exact Hsamples |]. split; [exact Hpulses |].
  split; [exact Hbiases |]. split; [exact Hget |].
  do 6 (split; [reflexivity |]). split; lia.
Qed.

Lemma event_scaling_study_entry_witness :
  exists results g' e,
    run_event_scaling_study
      {| gen := {| SignalGenerator.t_start := 0;
                   SignalGenerator.t_end := 100;
                   SignalGenerator.dt := 1 / 10;
                   SignalGenerator.time :=
                     map (fun i => 0 + INR i * (1 / 10)) (range 1000);
                   SignalGenerator.seed := 42 |};
         noise := {| NoiseModel.seed := 42 |} |}
      [3; 2]%nat 0%nat = Some (results, g')
    /\ dict_get results (str 2) = Some e
    /\ length (MA_biases e) = 2%nat.
Proof.
  destruct (event_scaling_study_entry 0%nat _ 0%nat _ [3; 2]%nat 2%nat
              (experiments_init 0%nat))
    as (results & g' & k & results_k & g_k & clean_events & g_b & bias_ma
        & bias_kf & e & Hrun & _ & _ & _ & _ & _ & _ & _ & _ & Hget
        & _ & _ & _ & _ & _ & _ & Hlen & _).
  - right. left.
  - exists results, g', e. split; [exact Hrun |]. split; [exact Hget | exact Hlen].
Defined.

(** * Further properties of the code *)

(** ** kalman_filter *)

(** X2. With [q >= 0] and [r > 0], [kalman_filter] raises exactly on the
    empty signal (IndexError at [signal[0]]), and otherwise returns as many
    estimates as there are observations. *)
Theorem kalman_filter_fails_iff_empty (signal : list R) (q r : R) :
  0 <= q -> 0 < r ->
  (kalman_filter signal q r = None <-> signal = [])
  /\ (forall out, kalman_filter signal q r = Some out ->
        length out = length signal).
Proof.
  intros Hq Hr. destruct signal as [| z0 rest].
  - split; [split; reflexivity | discriminate].
  - destruct (kalman_filter_defined (z0 :: rest) q r) as (out & Hrun & Hlen);
      [discriminate | assumption | assumption |].
    rewrite Hrun. split.
    + split; discriminate.
    + intros out' [= <-]. exact Hlen.
Qed.

Lemma kalman_filter_fails_iff_empty_witness :
  (kalman_filter [1; 3] 0 1 = None <-> [1; 3] = [])
  /\ (forall out, kalman_filter [1; 3] 0 1 = Some out ->
        length out = length [1; 3]).
Proof.
  apply kalman_filter_fails_iff_empty; lra.
Defined.

(** The gain of one update lies strictly between 0 and 1. *)
Lemma kalman_gain_unit_interval (q r pv : R) :
  0 <= q -> 0 < r -> 0 < pv ->
  0 < (pv + q) / (pv + q + r) < 1.
Proof.
  intros Hq Hr Hp. split.
  - apply Rdiv_lt_0_compat; lra.
  - apply Rmult_lt_reg_r with (pv + q + r); [lra |].
    replace ((pv + q) / (pv + q + r) * (pv + q + r)) with (pv + q) by (field; lra).
    lra.
Qed.

Lemma kalman_variance_pos (q r : R) (i : nat) :
  0 <= q -> 0 < r -> 0 < kalman_variance q r i.
Proof.
  intros Hq Hr. induction i as [| i IH]; [cbn; lra |].
  cbn [kalman_variance].
  destruct (kalman_update_defined q r 0 (kalman_variance q r i) 0 Hq Hr IH) as [_ Hpos].
  exact Hpos.
Qed.

(** The passes [j, ..., j + m - 1] of the loop take the variance of pass
    [j] to the variance of pass [j + m], whatever the observations are. *)
Lemma kalman_loop_variance (signal : list R) (q r : R) (m j : nat)
    (st : kalman_state) :
  0 <= q -> 0 < r ->
  (j + m <= length signal)%nat ->
  p st = kalman_variance q r j ->
  exists st',
    for_each (kalman_body signal q r) (seq j m) st = Some st'
    /\ p st' = kalman_variance q r (j + m).
Proof.
  intros Hq Hr. revert j st.
  induction m as [| m IH]; intros j st Hj Hp.
  - exists st. rewrite Nat.add_0_r. split; [reflexivity | exact Hp].
  - destruct (lookup_lt_is_Some_2 signal j) as [z Hz]; [lia |].
    assert (Hpos : 0 < p st) by (rewrite Hp; apply kalman_variance_pos; assumption).
    destruct (kalman_body_step signal q r st j z Hq Hr Hpos Hz) as [Hstep _].
    cbn [seq for_each]. rewrite Hstep. cbn [mbind option_bind].
    replace (j + S m)%nat with (S j + m)%nat by lia.
    apply IH; [lia |]. cbn [p kalman_variance]. rewrite Hp. reflexivity.
Qed.

(** The gain of pass [i], from the variance of pass [i]. *)
Lemma kalman_gain_value (signal : list R) (q r : R) (i : nat) :
  (i < length signal)%nat -> 0 <= q -> 0 < r ->
  kalman_gain signal q r i
  = Some ((kalman_variance q r i + q) / (kalman_variance q r i + q + r)).
Proof.
  intros Hi Hq Hr.
  destruct (lookup_lt_is_Some_2 signal 0%nat) as [z0 Hz0]; [lia |].
  destruct (lookup_lt_is_Some_2 signal i) as [z Hz]; [lia |].
  destruct (kalman_loop_variance signal q r i 0%nat
              (KalmanState z0 1 (np_zeros (length signal))) Hq Hr)
    as (st & Hrun & Hp); [lia | reflexivity |].
  cbn [Nat.add] in Hp.
  assert (Hpos : 0 < p st) by (rewrite Hp; apply kalman_variance_pos; assumption).
  destruct (kalman_update_defined q r (x_hat st) (p st) z Hq Hr Hpos) as [Hupd _].
  unfold kalman_gain, kalman_init, range. rewrite Hz0. cbn [mbind option_bind].
  rewrite Hrun. cbn [mbind option_bind]. rewrite Hz. cbn [mbind option_bind].
  rewrite Hupd. cbn [mbind option_bind]. rewrite Hp. reflexivity.
Qed.

(** X4. With [q >= 0] and [r > 0], neither above [10 ^ 300], the gain
    that [kalman_filter] computes at step [i] does not depend on the
    observations: two signals that both reach step [i] get the same gain,
    and it lies between 0 and 1.  The loop computes the gain from the
    variance alone, and the variance from the gain alone. *)
Theorem kalman_gain_independent_of_signal (signal1 signal2 : list R) (q r : R)
    (i : nat) :
  (i < length signal1)%nat -> (i < length signal2)%nat ->
  0 <= q <= 10 ^ 300 -> 0 < r <= 10 ^ 300 ->
  exists k,
    kalman_gain signal1 q r i = Some k
    /\ kalman_gain signal2 q r i = Some k
    /\ 0 <= k <= 1.
Proof.
  intros H1 H2 [Hq _] [Hr _].
  exists ((kalman_variance q r i + q) / (kalman_variance q r i + q + r)).
  split; [apply kalman_gain_value; assumption |].
  split; [apply kalman_gain_value; assumption |].
  destruct (kalman_gain_unit_interval q r (kalman_variance q r i) Hq Hr)
    as [Hlo Hhi]; [apply kalman_variance_pos; assumption | lra].
Qed.

Lemma kalman_gain_independent_of_signal_witness :
  exists k,
    kalman_gain [1; 3; 2] 1 1 1 = Some k
    /\ kalman_gain [7; 0] 1 1 1 = Some k
    /\ 0 <= k <= 1.
Proof.
  assert (Hbound : 0 <= 1 <= 10 ^ 300).
  { split; [lra |]. apply pow_R1_Rle. lra. }
  apply kalman_gain_independent_of_signal; [cbn; lia | cbn; lia | exact Hbound |].
  split; [lra | apply Hbound].
Defined.

(** ** moving_average *)

Lemma uniform_kernel (w : Z) :
  map (fun one => one / IZR w) (np_ones (Z.to_nat w))
  = replicate (Z.to_nat w) (1 / IZR w).
Proof.
  unfold np_ones. change (map ?f ?l) with (f <$> l).
  rewrite fmap_replicate. reflexivity.
Qed.

(** X7. [moving_average] raises exactly when the window size is at least
    one and the signal is empty (ValueError from [np.pad], or from
    [np.convolve] for a window of one); below one it returns even the
    empty signal. *)
Theorem moving_average_fails_iff (signal : list R) (window_size : Z) :
  moving_average signal window_size = None
  <-> signal = [] /\ (1 <= window_size)%Z.
Proof.
  split.
  - intros Hnone. destruct (Z_lt_le_dec window_size 1) as [Hlt | Hw].
    + unfold moving_average in Hnone.
      destruct (Z.ltb_spec window_size 1) as [_ | Hge]; [discriminate | lia].
    + split; [| exact Hw]. destruct signal as [| first rest]; [reflexivity |].
      destruct (moving_average_defined (first :: rest) window_size)
        as (out & Hrun & _); [discriminate | exact Hw | congruence].
  - intros [-> Hw]. unfold moving_average.
    destruct (Z.ltb_spec window_size 1) as [Hlt | _]; [lia |].
    unfold np_pad_edge.
    destruct (decide _) as [_ | _]; [| reflexivity].
    cbn [mbind option_bind]. rewrite uniform_kernel.
    destruct (Z.to_nat window_size) as [| m] eqn:Hm; [lia |].
    reflexivity.
Qed.

(** ** fourier_filter *)

(** X8. [fourier_filter] raises exactly on the empty signal (the transform
    refuses it) and on a zero sampling interval (ZeroDivisionError in
    [fftfreq]), whatever the cutoff; otherwise it returns as many samples
    as it was given. *)
Theorem fourier_filter_fails_iff (signal : list R) (dt cutoff_freq : R) :
  (fourier_filter signal dt cutoff_freq = None <-> signal = [] \/ dt = 0)
  /\ (forall out, fourier_filter signal dt cutoff_freq = Some out ->
        length out = length signal).
Proof.
  destruct signal as [| z0 rest].
  - split; [split; [left |]; reflexivity | discriminate].
  - destruct (Req_dec_T dt 0) as [-> | Hdt].
    + assert (Hnone : fourier_filter (z0 :: rest) 0 cutoff_freq = None).
      { destruct (fft_defined (np_complex (z0 :: rest))) as (yf & Hfft & _);
          [discriminate |].
        unfold fourier_filter. rewrite Hfft. cbn [mbind option_bind].
        unfold fftfreq, float_div. rewrite Rmult_0_r.
        destruct (Req_dec_T 0 0) as [_ | Hne]; [reflexivity | contradiction]. }
      rewrite Hnone. split; [split; [right |]; reflexivity | discriminate].
    + destruct (fourier_filter_defined (z0 :: rest) dt cutoff_freq)
        as (out & Hrun & Hlen); [discriminate | exact Hdt |].
      rewrite Hrun. split.
      * split; [discriminate |]. intros [Hnil | Hz]; [discriminate | contradiction].
      * intros out' Heq. assert (out' = out) by congruence. subst. exact Hlen.
Qed.

Lemma Rabs_above_negative (f cutoff : R) : cutoff < 0 -> Rabs f > cutoff.
Proof. intros Hc. pose proof (Rabs_pos f). lra. Qed.

Lemma zero_above_all (xf : list R) (cutoff : R) (yf : list complex) :
  length xf = length yf -> cutoff < 0 ->
  zero_above xf cutoff yf = replicate (length yf) C0.
Proof.
  intros Hlen Hc. unfold zero_above. revert yf Hlen.
  induction xf as [| f xf IH]; intros [| y yf] Hlen; try discriminate; [reflexivity |].
  cbn [zip_with length replicate].
  destruct (Rgt_dec (Rabs f) cutoff) as [_ | Hn].
  - f_equal. apply IH. cbn in Hlen. lia.
  - exfalso. apply Hn. apply Rabs_above_negative. exact Hc.
Qed.

Lemma entry_zeros (n k : nat) : entry (replicate n C0) k = C0.
Proof.
  unfold entry. destruct (replicate n C0 !! k) as [c |] eqn:Hk; [| reflexivity].
  apply lookup_replicate in Hk as [-> _]. reflexivity.
Qed.

(** The inverse transform of the zero spectrum. *)
Lemma ifft_zeros (n : nat) :
  (0 < n)%nat ->
  option_map np_real (ifft (replicate n C0)) = Some (replicate n 0).
Proof.
  intros Hn. unfold ifft. rewrite length_replicate.
  destruct (decide (n = 0%nat)) as [Hz | _]; [lia |].
  cbn [option_map]. f_equal.
  apply (list_eq_same_length _ _ n);
    [apply length_replicate
    | unfold np_real; rewrite length_map; apply length_map_range |].
  intros j x y Hj Hx Hy.
  apply lookup_replicate in Hy as [-> _].
  unfold np_real in Hx. change (map re ?l) with (re <$> l) in Hx.
  rewrite list_lookup_fmap, lookup_map_range in Hx by exact Hj.
  cbn [fmap option_fmap option_map] in Hx. injection Hx as <-.
  rewrite (Csum_ext _ (fun _ => C0)).
  - rewrite Csum_zero. cbn. ring.
  - intros k _. rewrite entry_zeros. apply complex_eq; cbn; ring.
Qed.

(** X9. With a negative cutoff every frequency bin lies above it, so
    [fourier_filter] removes them all and returns the zero signal, of the
    length of the input.  The sampling interval is kept between
    [10 ^ -150] and [10 ^ 150] in magnitude, where the bin frequencies are
    ordinary numbers. *)
Theorem fourier_filter_negative_cutoff (signal : list R) (dt cutoff_freq : R) :
  signal <> [] -> / 10 ^ 150 <= Rabs dt <= 10 ^ 150 -> cutoff_freq < 0 ->
  fourier_filter signal dt cutoff_freq = Some (replicate (length signal) 0).
Proof.
  intros Hne [Hlo _] Hc.
  assert (Hdt : dt <> 0).
  { intros ->. rewrite Rabs_R0 in Hlo.
    assert (0 < / 10 ^ 150) by (apply Rinv_0_lt_compat, pow_lt; lra). lra. }
  assert (Hn : (0 < length signal)%nat)
    by (destruct signal; [contradiction | cbn; lia]).
  destruct (fft_defined (np_complex signal)) as (yf & Hfft & Hyf).
  { destruct signal; [contradiction | discriminate]. }
  unfold np_complex in Hyf. rewrite length_map in Hyf.
  destruct (fftfreq_defined (length signal) dt Hn Hdt) as (xf & Hxf & Hlen).
  unfold fourier_filter. rewrite Hfft. cbn [mbind option_bind].
  rewrite Hxf. cbn [mbind option_bind].
  rewrite zero_above_all by (try lia; exact Hc). rewrite Hyf.
  pose proof (ifft_zeros (length signal) Hn) as Hz.
  destruct (ifft (replicate (length signal) C0)) as [filtered |];
    [| discriminate].
  cbn [option_map] in Hz. cbn [mbind option_bind]. exact Hz.
Qed.

Lemma fourier_filter_negative_cutoff_witness :
  fourier_filter [1; 3; 2] (1 / 2) (-1) = Some (replicate (length [1; 3; 2]) 0).
Proof.
  apply fourier_filter_negative_cutoff; [discriminate | | lra].
  rewrite Rabs_pos_eq by lra. split.
  - apply Rle_trans with (/ 10 ^ 1); [| lra].
    apply Rinv_le_contravar; [lra |]. apply Rle_pow; [lra | lia].
  - apply Rle_trans with 1; [lra |]. apply pow_R1_Rle. lra.
Defined.

(** ** metrics.py *)

(** *** Broadcasting *)

Lemma np_broadcast_flip (op : R -> R -> R) (a b : list R) :
  np_broadcast op a b = np_broadcast (fun x y => op y x) b a.
Proof.
  unfold np_broadcast.
  destruct (decide (length a = length b)) as [Heq | Hne];
    destruct (decide (length b = length a)) as [Heq' | Hne']; try congruence.
  - f_equal. revert b Heq Heq'. induction a as [| x a IH]; intros [| y b] H1 H2;
      try discriminate; [reflexivity |].
    cbn [zip_with]. f_equal. apply IH; cbn in *; lia.
  - destruct a as [| x [| x' a]], b as [| y [| y' b]];
      try reflexivity; cbn in Hne; try lia.
Qed.

Lemma np_broadcast_map (f : R -> R) (op : R -> R -> R) (a b : list R) :
  np_broadcast (fun x y => f (op x y)) a b
  = option_map (map f) (np_broadcast op a b).
Proof.
  unfold np_broadcast.
  destruct (decide (length a = length b)) as [_ | Hne].
  - cbn [option_map]. f_equal. revert b.
    induction a as [| x a IH]; intros [| y b]; try reflexivity.
    cbn [zip_with map]. f_equal. apply IH.
  - destruct a as [| x [| x' a]], b as [| y [| y' b]];
      try reflexivity; cbn [option_map]; f_equal; rewrite map_map; reflexivity.
Qed.

(** The difference taken the other way round is the negated difference. *)
Lemma np_broadcast_minus_swap (a b : list R) :
  np_broadcast Rminus a b = option_map (map Ropp) (np_broadcast Rminus b a).
Proof.
  rewrite np_broadcast_flip, <- np_broadcast_map.
  unfold np_broadcast. destruct (decide _).
  - f_equal. apply zip_with_ext; [| reflexivity..]. intros x y. ring.
  - destruct b as [| y [| y' b]], a as [| x [| x' a]]; try reflexivity;
      f_equal; apply map_ext; intros t; ring.
Qed.

Lemma np_square_opp (d : list R) : np_square (map Ropp d) = np_square d.
Proof. unfold np_square. rewrite map_map. apply map_ext. intros x. ring. Qed.

Lemma np_sum_opp (d : list R) : np_sum (map Ropp d) = - np_sum d.
Proof.
  induction d as [| x d IH]; [cbn; ring |].
  cbn [map]. rewrite !np_sum_cons, IH. ring.
Qed.

Lemma np_mean_opp (d : list R) :
  np_mean (map Ropp d) = option_map Ropp (np_mean d).
Proof.
  destruct d as [| x d]; [reflexivity |].
  rewrite !np_mean_nonempty by discriminate. cbn [option_map]. f_equal.
  rewrite np_sum_opp, length_map. unfold Rdiv. ring.
Qed.

(** X11. Swapping reference and candidate leaves the mean squared error
    and the peak amplitude error unchanged and flips the sign of the bias,
    for arrays of any lengths (errors and nan included). *)
Theorem metrics_swap (a b : list R) :
  mean_squared_error a b = mean_squared_error b a
  /\ peak_amplitude_error a b = peak_amplitude_error b a
  /\ reconstruction_bias a b = option_map Ropp (reconstruction_bias b a).
Proof.
  split; [| split].
  - unfold mean_squared_error. rewrite (np_broadcast_minus_swap a b).
    destruct (np_broadcast Rminus b a) as [d |]; [| reflexivity].
    cbn [option_map mbind option_bind]. rewrite np_square_opp. reflexivity.
  - unfold peak_amplitude_error.
    destruct (np_max a) as [pa |], (np_max b) as [pb |]; try reflexivity.
    cbn [mbind option_bind]. f_equal. apply Rabs_minus_sym.
  - unfold reconstruction_bias. rewrite (np_broadcast_minus_swap b a).
    destruct (np_broadcast Rminus a b) as [d |]; [| reflexivity].
    cbn [option_map mbind option_bind]. apply np_mean_opp.
Qed.

(** *** Zero residual *)

Lemma compute_all_fields (a b : list R) (report : MetricReport) :
  compute_all a b = Some report ->
  mean_squared_error a b = Some (MSE report)
  /\ signal_to_noise_ratio a b = Some (SNR report)
  /\ peak_amplitude_error a b = Some (Peak_Error report)
  /\ reconstruction_bias a b = Some (Bias report).
Proof.
  unfold compute_all.
  destruct (mean_squared_error a b) as [m |]; [| discriminate].
  destruct (signal_to_noise_ratio a b) as [s |]; [| discriminate].
  destruct (peak_amplitude_error a b) as [pk |]; [| discriminate].
  destruct (reconstruction_bias a b) as [bs |]; [| discriminate].
  cbn [mbind option_bind]. intros Heq.
  assert (Hr : report = {| MSE := m; SNR := s; Peak_Error := pk; Bias := bs |})
    by congruence.
  rewrite Hr. repeat split.
Qed.

Lemma np_broadcast_none_iff (op : R -> R -> R) (a b : list R) :
  np_broadcast op a b = None
  <-> length a <> length b /\ length a <> 1%nat /\ length b <> 1%nat.
Proof.
  unfold np_broadcast. destruct (decide (length a = length b)) as [Heq | Hne].
  - split; [discriminate | intros [H _]; contradiction].
  - destruct a as [| x [| x' a]], b as [| y [| y' b]]; cbn in *;
      (split; [try discriminate; intros _; repeat split; lia
              | try reflexivity; intros (_ & H1 & H2); lia]).
Qed.

Lemma np_broadcast_nil_iff (op : R -> R -> R) (a b d : list R) :
  np_broadcast op a b = Some d -> (d = [] <-> a = [] \/ b = []).
Proof.
  unfold np_broadcast. destruct (decide (length a = length b)) as [Heq | Hne].
  - intros [= <-]. destruct a, b; try discriminate; cbn;
      (split; [intros H; try discriminate; auto | intros [H | H]; try discriminate; auto]).
  - destruct a as [| x [| x' a]], b as [| y [| y' b]]; cbn in *; try lia;
      intros [= <-];
      (split; [intros H; try discriminate; auto | intros [H | H]; try discriminate; auto]).
Qed.

(** X15. [compute_all] raises exactly when one of the two arrays is empty
    or their lengths differ with neither of them of length one (numpy
    broadcasts a one-entry array); in every other case it returns a
    report. *)
Theorem compute_all_fails_iff (a b : list R) :
  compute_all a b = None
  <-> a = [] \/ b = []
      \/ (length a <> length b /\ length a <> 1%nat /\ length b <> 1%nat).
Proof.
  split.
  - intros Hnone.
    destruct a as [| x a']; [left; reflexivity |].
    destruct b as [| y b']; [right; left; reflexivity |].
    right. right.
    set (a := x :: a') in *. set (b := y :: b') in *.
    destruct (np_broadcast Rminus a b) as [d |] eqn:Hd;
      [| apply (np_broadcast_none_iff Rminus); exact Hd].
    exfalso.
    assert (Hdne : d <> []).
    { intros Hnil. apply (np_broadcast_nil_iff _ _ _ _ Hd) in Hnil as [H | H];
        discriminate. }
    assert (Hd' : np_broadcast Rminus b a = Some (map Ropp d)).
    { rewrite np_broadcast_minus_swap, Hd. reflexivity. }
    destruct (np_mean_defined (np_square d)) as [m Hm].
    { destruct d; [contradiction | discriminate]. }
    destruct (np_mean_defined (np_square a)) as [power Hpower]; [discriminate |].
    destruct (np_mean_defined (map Ropp d)) as [bias Hbias].
    { destruct d; [contradiction | discriminate]. }
    assert (Hsnr : exists snr, signal_to_noise_ratio a b = Some snr).
    { unfold signal_to_noise_ratio. rewrite Hpower, Hd. cbn [mbind option_bind].
      rewrite Hm. cbn [mbind option_bind].
      destruct (Req_dec_T m 0) as [_ | Hnz]; [eexists; reflexivity |].
      destruct (np_log10_nonneg_defined (power / m)) as [l Hl].
      { pose proof (np_mean_square_nonneg _ _ Hpower).
        pose proof (np_mean_square_nonneg _ _ Hm).
        apply Rmult_le_pos; [lra |]. apply Rlt_le, Rinv_0_lt_compat. lra. }
      rewrite Hl. eexists. reflexivity. }
    destruct Hsnr as [snr Hsnr].
    unfold compute_all, mean_squared_error, peak_amplitude_error,
      reconstruction_bias in Hnone.
    rewrite Hd, Hd', Hsnr in Hnone. cbn [mbind option_bind] in Hnone.
    rewrite Hm, Hbias in Hnone. discriminate.
  - intros Hcase.
    destruct (compute_all a b) as [report |] eqn:Hrun; [| reflexivity].
    exfalso. destruct (compute_all_fields _ _ _ Hrun) as (Hmse & _ & Hpeak & _).
    destruct Hcase as [-> | [-> | Hlen]].
    + discriminate.
    + unfold peak_amplitude_error in Hpeak.
      destruct (np_max a); discriminate.
    + apply (np_broadcast_none_iff Rminus) in Hlen.
      unfold mean_squared_error in Hmse. rewrite Hlen in Hmse. discriminate.
Qed.

(** ** noise_model.py *)

Section NoiseProcessFacts.
Context {G : Type} `{RandomChoice G}.

Lemma zip_with_plus_zero (signal noise : list R) :
  length noise = length signal ->
  Forall (fun z => z = 0) noise ->
  zip_with Rplus signal noise = signal.
Proof.
  revert noise. induction signal as [| s signal IH]; intros [| z noise] Hlen Hz;
    try discriminate; [reflexivity |].
  apply Forall_cons in Hz as [-> Hz]. cbn [zip_with].
  rewrite IH by (try exact Hz; cbn in Hlen; lia). f_equal. ring.
Qed.

(** X16. [add_gaussian_noise] raises for every negative [sigma]
    (ValueError of [np.random.normal]).  For a positive [sigma] it takes
    one unit normal draw per sample from the generator, no more, and
    returns the signal with [0 + sigma * z] added to each sample, [z]
    being the draw of that sample: an array as long as the signal. *)
Theorem add_gaussian_noise_behaviour (signal : list R) (sigma : R) (g : G) :
  (sigma < 0 -> NoiseModel.add_gaussian_noise signal sigma g = None)
  /\ (0 < sigma ->
      exists out,
        NoiseModel.add_gaussian_noise signal sigma g
        = Some (out, skip_normals (length signal) g)
        /\ out = zip_with Rplus signal
                   (map (fun z => 0 + sigma * z)
                        (fst (standard_normals (length signal) g)))
        /\ length out = length signal).
Proof.
  split.
  - intros Hneg.
    unfold NoiseModel.add_gaussian_noise, rand_bind, np_random_normal.
    destruct (Rlt_dec sigma 0); [reflexivity | contradiction].
  - intros Hpos. eexists. split; [apply add_gaussian_noise_run; lra |].
    split; [reflexivity |].
    rewrite length_zip_with, length_map, standard_normals_length. lia.
Qed.

Lemma np_random_random_spec (n : nat) (g : G) :
  length (fst (np_random_random n g)) = n
  /\ Forall (fun u => 0 <= u < 1) (fst (np_random_random n g)).
Proof.
  revert g. induction n as [| n IH]; intros g; [split; [reflexivity | constructor] |].
  cbn [np_random_random]. pose proof (random_sample_range g) as Hu.
  destruct (random_sample g) as [u g1]. specialize (IH g1).
  destruct (np_random_random n g1) as [us g2]. cbn [fst] in *.
  destruct IH as [Hlen Hall]. split; [cbn; lia | constructor; assumption].
Qed.

(** Random signs: as many as asked for, each of them -1 or 1. *)
Lemma np_random_choice_signs (n : nat) (g : G) :
  exists signs g',
    np_random_choice [-1; 1] n g = Some (signs, g')
    /\ length signs = n
    /\ Forall (fun c => c = -1 \/ c = 1) signs.
Proof.
  revert g. induction n as [| n IH]; intros g.
  - exists [], g. split; [reflexivity |]. split; [reflexivity | constructor].
  - cbn [np_random_choice length].
    pose proof (randint_range 2 g ltac:(lia)) as Hi.
    destruct (randint 2 g) as [i g1]. cbn [fst] in Hi.
    destruct (IH g1) as (signs & g2 & Hrun & Hlen & Hall).
    assert (Hc : exists c, [-1; 1] !! i = Some c /\ (c = -1 \/ c = 1)).
    { destruct i as [| [| i]]; [eexists; split; [reflexivity | auto]..| lia]. }
    destruct Hc as (c & Hc & Hsign).
    rewrite Hc. cbn [mbind option_bind]. rewrite Hrun. cbn [mbind option_bind].
    exists (c :: signs), g2. split; [reflexivity |].
    split; [cbn; lia | constructor; assumption].
Qed.

(** What [add_spikes] returns: the signal plus, sample by sample, the mask
    entry times the sign times the amplitude. *)
Lemma add_spikes_run (signal : list R) (prob amplitude : R) (g : G) :
  exists signs g',
    NoiseProcesses.add_spikes signal prob amplitude g
    = Some (zip_with Rplus signal
              (zip_with Rmult
                 (NoiseProcesses.spike_mask prob
                    (fst (np_random_random (length signal) g)))
                 (map (fun c => c * amplitude) signs)),
            g')
    /\ length signs = length signal
    /\ Forall (fun c => c = -1 \/ c = 1) signs.
Proof.
  unfold NoiseProcesses.add_spikes.
  destruct (np_random_random_spec (length signal) g) as [Hlen _].
  destruct (np_random_random (length signal) g) as [draws g1]. cbn [fst] in *.
  destruct (np_random_choice_signs (length signal) g1)
    as (signs & g2 & Hrun & Hsl & Hall).
  rewrite Hrun. cbn [mbind option_bind].
  assert (Hml : length (NoiseProcesses.spike_mask prob draws) = length signal)
    by (unfold NoiseProcesses.spike_mask; rewrite length_map; exact Hlen).
  rewrite np_broadcast_same_length by (rewrite length_map; lia).
  cbn [mbind option_bind].
  rewrite np_broadcast_same_length
    by (rewrite length_zip_with, length_map; lia).
  cbn [mbind option_bind].
  exists signs, g2. split; [reflexivity |]. split; assumption.
Qed.

(** X18. [add_spikes] never raises and returns an array as long as the
    signal in which every sample is the input sample, unchanged or moved by
    exactly plus or minus [amplitude]; with a probability of 0 or below it
    returns the signal unchanged, with a probability of 1 or above it moves
    every sample. *)
Theorem add_spikes_samples (signal : list R) (prob amplitude : R) (g : G) :
  exists out g',
    NoiseProcesses.add_spikes signal prob amplitude g = Some (out, g')
    /\ length out = length signal
    /\ (forall i s o, signal !! i = Some s -> out !! i = Some o ->
          (o = s \/ o = s + amplitude \/ o = s - amplitude)
          /\ (1 <= prob -> o = s + amplitude \/ o = s - amplitude))
    /\ (prob <= 0 -> out = signal).
Proof.
  destruct (add_spikes_run signal prob amplitude g) as (signs & g' & Hrun & Hsl & Hall).
  destruct (np_random_random_spec (length signal) g) as [Hdl Hrange].
  set (draws := fst (np_random_random (length signal) g)) in *.
  eexists _, g'. split; [exact Hrun |]. split; [| split].
  - unfold NoiseProcesses.spike_mask.
    rewrite !length_zip_with, !length_map. lia.
  - intros i s o Hs Ho.
    apply lookup_zip_with_Some in Ho as (s' & sp & -> & Hs' & Hsp).
    assert (s' = s) by congruence. subst s'.
    apply lookup_zip_with_Some in Hsp as (m & ca & -> & Hm & Hca).
    unfold NoiseProcesses.spike_mask in Hm.
    change (map ?f draws) with (f <$> draws) in Hm.
    change (map ?f signs) with (f <$> signs) in Hca.
    rewrite list_lookup_fmap in Hm. rewrite list_lookup_fmap in Hca.
    destruct (draws !! i) as [u |] eqn:Hu; [| discriminate].
    destruct (signs !! i) as [c |] eqn:Hc; [| discriminate].
    cbn in Hm, Hca. injection Hm as <-. injection Hca as <-.
    assert (Hcs : c = -1 \/ c = 1).
    { rewrite Forall_forall in Hall. apply Hall, list_elem_of_lookup. eauto. }
    assert (Hur : 0 <= u < 1).
    { rewrite Forall_forall in Hrange. apply Hrange, list_elem_of_lookup. eauto. }
    destruct (Rlt_dec u prob) as [Hhit | Hmiss].
    + assert (Hmove : s + 1 * (c * amplitude) = s + amplitude
                      \/ s + 1 * (c * amplitude) = s - amplitude)
        by (destruct Hcs as [-> | ->]; [right | left]; ring).
      split; [right; exact Hmove | intros _; exact Hmove].
    + split; [left; ring | intros Hp; lra].
  - intros Hp. apply zip_with_plus_zero.
    + unfold NoiseProcesses.spike_mask. rewrite length_zip_with, !length_map. lia.
    + apply Forall_forall. intros x Hx.
      apply list_elem_of_lookup in Hx as [i Hx].
      apply lookup_zip_with_Some in Hx as (m & ca & -> & Hm & _).
      unfold NoiseProcesses.spike_mask in Hm.
      change (map ?f draws) with (f <$> draws) in Hm.
      rewrite list_lookup_fmap in Hm.
      destruct (draws !! i) as [u |] eqn:Hu; [| discriminate].
      cbn in Hm. injection Hm as <-.
      assert (Hur : 0 <= u < 1).
      { rewrite Forall_forall in Hrange. apply Hrange, list_elem_of_lookup. eauto. }
      destruct (Rlt_dec u prob); [lra | ring].
Qed.

(** The three steps of [apply_full_noise_model] in one formula: the
    Gaussian noise, the drift and the spikes, added in this order. *)
Lemma apply_full_noise_model_run (signal time : list R)
    (gaussian_sigma drift_amplitude drift_frequency spike_prob spike_amplitude : R)
    (g : G) :
  length time = length signal -> 0 <= gaussian_sigma ->
  exists signs g',
    NoiseProcesses.apply_full_noise_model signal time gaussian_sigma
      drift_amplitude drift_frequency spike_prob spike_amplitude g
    = Some (zip_with Rplus
              (zip_with Rplus
                 (zip_with Rplus signal
                    (map (fun z => 0 + gaussian_sigma * z)
                         (fst (standard_normals (length signal) g))))
                 (map (fun t => drift_amplitude
                                * sin (2 * PI * drift_frequency * t)) time))
              (zip_with Rmult
                 (NoiseProcesses.spike_mask spike_prob
                    (fst (np_random_random (length signal)
                            (skip_normals (length signal) g))))
                 (map (fun c => c * spike_amplitude) signs)),
            g')
    /\ length signs = length signal
    /\ Forall (fun c => c = -1 \/ c = 1) signs.
Proof.
  intros Hlen Hs.
  set (zs := fst (standard_normals (length signal) g)).
  set (s1 := zip_with Rplus signal (map (fun z => 0 + gaussian_sigma * z) zs)).
  assert (Hl1 : length s1 = length signal).
  { unfold s1, zs. rewrite length_zip_with, length_map, standard_normals_length. lia. }
  set (s2 := zip_with Rplus s1
               (map (fun t => drift_amplitude * sin (2 * PI * drift_frequency * t))
                    time)).
  assert (Hl2 : length s2 = length signal).
  { unfold s2. rewrite length_zip_with, length_map. lia. }
  assert (Hdrift : NoiseProcesses.add_baseline_drift s1 time drift_amplitude
                     drift_frequency = Some s2).
  { unfold NoiseProcesses.add_baseline_drift.
    apply np_broadcast_same_length. rewrite length_map. lia. }
  destruct (add_spikes_run s2 spike_prob spike_amplitude
              (skip_normals (length signal) g)) as (signs & g' & Hspikes & Hsl & Hsigns).
  rewrite Hl2 in Hspikes, Hsl.
  exists signs, g'. split; [| split; [exact Hsl | exact Hsigns]].
  unfold NoiseProcesses.apply_full_noise_model.
  rand_step (add_gaussian_noise_run signal gaussian_sigma g Hs).
  fold zs s1. rand_step Hdrift. rand_step Hspikes. reflexivity.
Qed.

Lemma spike_offsets (prob amplitude : R) (draws signs : list R) :
  Forall (fun c => c = -1 \/ c = 1) signs ->
  Forall (fun x => x = 0 \/ x = amplitude \/ x = - amplitude)
    (zip_with Rmult (NoiseProcesses.spike_mask prob draws)
       (map (fun c => c * amplitude) signs)).
Proof.
  intros Hsigns. apply Forall_forall. intros x Hx.
  apply list_elem_of_lookup in Hx as [i Hx].
  apply lookup_zip_with_Some in Hx as (m & ca & -> & Hm & Hca).
  unfold NoiseProcesses.spike_mask in Hm.
  change (map ?f draws) with (f <$> draws) in Hm.
  change (map ?f signs) with (f <$> signs) in Hca.
  rewrite list_lookup_fmap in Hm. rewrite list_lookup_fmap in Hca.
  destruct (draws !! i) as [u |]; [| discriminate].
  destruct (signs !! i) as [c |] eqn:Hc; [| discriminate].
  cbn in Hm, Hca. injection Hm as <-. injection Hca as <-.
  assert (Hcs : c = -1 \/ c = 1).
  { rewrite Forall_forall in Hsigns. apply Hsigns, list_elem_of_lookup. eauto. }
  destruct (Rlt_dec u prob).
  - destruct Hcs as [-> | ->]; [right; right | right; left]; ring.
  - left. ring.
Qed.

(** X19. With a time array as long as the signal and a positive Gaussian
    sigma, [apply_full_noise_model] returns an array as long as the
    signal.  The three processes act in the order of the source: first
    the Gaussian noise, drawn before anything else, then the drift, then
    the spikes.  So every output sample is the sample of
    [(signal + noise) + drift] at its place, unchanged or moved by
    exactly plus or minus [spike_amplitude]. *)
Theorem apply_full_noise_model_samples (signal time : list R)
    (gaussian_sigma drift_amplitude drift_frequency spike_prob spike_amplitude : R)
    (g : G) :
  length time = length signal -> 0 < gaussian_sigma ->
  exists out g',
    NoiseProcesses.apply_full_noise_model signal time gaussian_sigma
      drift_amplitude drift_frequency spike_prob spike_amplitude g
    = Some (out, g')
    /\ length out = length signal
    /\ (forall i m o,
          zip_with Rplus
            (zip_with Rplus signal
               (map (fun z => 0 + gaussian_sigma * z)
                    (fst (standard_normals (length signal) g))))
            (map (fun t => drift_amplitude * sin (2 * PI * drift_frequency * t))
                 time) !! i = Some m ->
          out !! i = Some o ->
          o = m \/ o = m + spike_amplitude \/ o = m - spike_amplitude).
Proof.
  intros Hlen Hs.
  destruct (apply_full_noise_model_run signal time gaussian_sigma drift_amplitude
              drift_frequency spike_prob spike_amplitude g Hlen ltac:(lra))
    as (signs & g' & Hrun & Hsl & Hsigns).
  destruct (np_random_random_spec (length signal) (skip_normals (length signal) g))
    as [Hdl _].
  pose proof (standard_normals_length (length signal) g) as Hzl.
  eexists _, g'. split; [exact Hrun |]. split.
  - unfold NoiseProcesses.spike_mask.
    rewrite !length_zip_with, !length_map. lia.
  - intros i m o Hm Ho.
    apply lookup_zip_with_Some in Ho as (m' & x & -> & Hm' & Hx).
    assert (m' = m) by congruence. subst m'.
    assert (Hoff : x = 0 \/ x = spike_amplitude \/ x = - spike_amplitude).
    { eapply (proj1 (Forall_forall _ _)
                (spike_offsets spike_prob spike_amplitude _ signs Hsigns)).
      apply list_elem_of_lookup. eauto. }
    destruct Hoff as [-> | [-> | ->]];
      [left; ring | right; left; ring | right; right; ring].
Qed.

End NoiseProcessFacts.

Lemma apply_full_noise_model_samples_witness :
  exists out g',
    NoiseProcesses.apply_full_noise_model [1; 3; 2] [0; 1; 2] 1 0 (1 / 20) 0 2 0%nat
    = Some (out, g')
    /\ length out = length [1; 3; 2].
Proof.
  destruct (apply_full_noise_model_samples [1; 3; 2] [0; 1; 2] 1 0 (1 / 20) 0 2
              0%nat eq_refl Rlt_0_1) as (out & g' & Hrun & Hlen & _).
  exists out, g'. split; [exact Hrun | exact Hlen].
Defined.

(** ** signal_generator.py: the time base, the pulse, the event batch *)

(** The profile of the pulse lies between 0 and 1. *)
Lemma gaussian_profile (sigma d : R) :
  sigma <> 0 -> 0 < exp (- d ^ 2 / (2 * sigma ^ 2)) <= 1.
Proof.
  intros Hs.
  assert (Hs2 : 0 < 2 * sigma ^ 2) by (assert (sigma * sigma > 0) by nra; nra).
  assert (Hd0 : 0 <= d ^ 2) by nra.
  pose proof (Rinv_0_lt_compat _ Hs2) as Hinv.
  split; [apply exp_pos |].
  rewrite <- exp_0.
  destruct (Req_dec (- d ^ 2 / (2 * sigma ^ 2)) 0) as [-> | Hne]; [lra |].
  left. apply exp_increasing. unfold Rdiv in *. nra.
Qed.

(** X21. For an amplitude that is not negative and a width between
    [10 ^ -150] and [10 ^ 150] in magnitude (its sign does not matter,
    only its square is used), [generate_gaussian_pulse] returns one
    sample per sample time, and every sample lies between 0 and
    [amplitude]: the exponent is never positive. *)
Theorem generate_gaussian_pulse_shape (self : SignalGenerator.t)
    (amplitude t0 sigma : R) :
  / 10 ^ 150 <= Rabs sigma <= 10 ^ 150 -> 0 <= amplitude ->
  exists pulse,
    SignalGenerator.generate_gaussian_pulse self amplitude t0 sigma = Some pulse
    /\ length pulse = length (SignalGenerator.time self)
    /\ (forall i p, pulse !! i = Some p -> 0 <= p <= amplitude).
Proof.
  intros [Hlo _] Ha.
  assert (Hs : sigma <> 0).
  { intros ->. rewrite Rabs_R0 in Hlo.
    assert (0 < / 10 ^ 150) by (apply Rinv_0_lt_compat, pow_lt; lra). lra. }
  eexists. split; [apply generate_gaussian_pulse_nonzero_width, Hs |].
  split; [apply length_map |].
  intros i p Hp. change (map ?f ?l) with (f <$> l) in Hp.
  rewrite list_lookup_fmap in Hp.
  destruct (SignalGenerator.time self !! i) as [tm |]; [| discriminate].
  cbn [fmap option_fmap option_map] in Hp.
  destruct (gaussian_profile sigma (tm - t0) Hs) as [Hpos Hle1].
  set (e := exp _) in *. injection Hp as <-.
  split; nra.
Qed.

Lemma generate_gaussian_pulse_shape_witness :
  exists pulse,
    SignalGenerator.generate_gaussian_pulse
      {| SignalGenerator.t_start := 0; SignalGenerator.t_end := 3;
         SignalGenerator.dt := 1; SignalGenerator.time := [0; 1; 2];
         SignalGenerator.seed := 42 |} 2 1 (-3)
    = Some pulse
    /\ length pulse = length [0; 1; 2]
    /\ (forall i p, pulse !! i = Some p -> 0 <= p <= 2).
Proof.
  apply (generate_gaussian_pulse_shape
           {| SignalGenerator.t_start := 0; SignalGenerator.t_end := 3;
              SignalGenerator.dt := 1; SignalGenerator.time := [0; 1; 2];
              SignalGenerator.seed := 42 |} 2 1 (-3)); [| lra].
  rewrite Rabs_left by lra. split.
  - apply Rle_trans with (/ 1); [| lra].
    apply Rinv_le_contravar; [lra |]. apply pow_R1_Rle. lra.
  - apply Rle_trans with (10 ^ 1); [lra |]. apply Rle_pow; [lra | lia].
Defined.

Section EventBatchFacts.
Context {G : Type} `{RandomState G}.

(** X22. With its default ranges [generate_event_batch] never raises:
    it returns [n_events] rows, each as long as the time base and each
    the Gaussian pulse of an amplitude in [[0.8, 1.2]], a center in
    [[40, 60]] and a width in [[3, 7]]. *)
Theorem generate_event_batch_rows (self : SignalGenerator.t) (n_events : nat)
    (g : G) :
  exists events g',
    SignalGenerator.generate_event_batch self n_events
      (8 / 10, 12 / 10) (40, 60) (3, 7) g
    = Some (events, g')
    /\ length events = n_events
    /\ (forall i row, events !! i = Some row ->
          length row = length (SignalGenerator.time self)
          /\ study_pulse (SignalGenerator.time self) row).
Proof.
  destruct (study_batch self n_events g)
    as (events & g' & Hrun & Hlen & Hpulses & Hrows).
  exists events, g'. split; [exact Hrun |]. split; [exact Hlen |].
  intros i row Hi.
  assert (Hin : row ∈ events) by (apply list_elem_of_lookup; eauto).
  rewrite Forall_forall in Hpulses, Hrows. split; [apply Hrows | apply Hpulses]; exact Hin.
Qed.

End EventBatchFacts.

(** ** experiments.py: the two studies on any list of levels or counts *)

Section SweepFacts.
Context {G : Type} `{RandomState G}.

(** One pass of the sweep at a level that is not negative. *)
Lemma noise_sweep_body_entry (clean : list R) (dt sigma : R)
    (results : list (R * SweepEntry)) (g : G) :
  clean <> [] -> dt <> 0 -> 0 <= sigma ->
  exists e,
    noise_sweep_body clean dt results sigma g
    = Some (dict_set results sigma e, skip_normals (length clean) g)
    /\ sweep_entry clean dt (sweep_noisy clean sigma g 0) e.
Proof.
  intros Hne Hdt Hs.
  set (noisy := sweep_noisy clean sigma g 0).
  assert (Hnl : length noisy = length clean).
  { unfold noisy, sweep_noisy, block_draws.
    rewrite length_zip_with, length_map, standard_normals_length. lia. }
  assert (Hnn : noisy <> []).
  { intros Hnil. rewrite Hnil in Hnl. destruct clean; [contradiction | discriminate]. }
  destruct (moving_average_defined noisy default_window_size Hnn) as (f_ma & Hma & Hlma).
  { unfold default_window_size. lia. }
  destruct (fourier_filter_defined noisy dt (1 / 2) Hnn Hdt) as (f_ff & Hff & Hlff).
  destruct (kalman_filter_defined noisy default_process_noise
              default_measurement_noise Hnn) as (f_kf & Hkf & Hlkf);
    [unfold default_process_noise; lra | unfold default_measurement_noise; lra |].
  destruct (compute_all_defined clean f_ma Hne) as (m_ma & Hm_ma & _); [lia |].
  destruct (compute_all_defined clean f_ff Hne) as (m_ff & Hm_ff & _); [lia |].
  destruct (compute_all_defined clean f_kf Hne) as (m_kf & Hm_kf & _); [lia |].
  destruct (compute_all_defined clean noisy Hne) as (m_noisy & Hm_noisy & _); [lia |].
  exists {| MA := m_ma; Fourier := m_ff; Kalman := m_kf; Noisy := m_noisy |}.
  split.
  - unfold noise_sweep_body.
    rand_step (add_gaussian_noise_run clean sigma g Hs).
    change (zip_with Rplus clean _) with noisy.
    rand_step Hma. rand_step Hff. rand_step Hkf.
    rand_step Hm_ma. rand_step Hm_ff. rand_step Hm_kf. rand_step Hm_noisy.
    reflexivity.
  - exists f_ma, f_ff, f_kf. cbn [MA Fourier Kalman Noisy]. auto 10.
Qed.

(** When one pass of the sweep raises. *)
Lemma noise_sweep_body_fails (clean : list R) (dt sigma : R)
    (results : list (R * SweepEntry)) (g : G) :
  noise_sweep_body clean dt results sigma g = None
  <-> sigma < 0 \/ clean = [] \/ dt = 0.
Proof.
  destruct (Rlt_dec sigma 0) as [Hneg | Hpos].
  { split; [auto |]. intros _.
    unfold noise_sweep_body, rand_bind at 1.
    unfold NoiseModel.add_gaussian_noise, rand_bind, np_random_normal.
    destruct (Rlt_dec sigma 0); [reflexivity | contradiction]. }
  assert (Hs : 0 <= sigma) by lra.
  destruct clean as [| c0 clean].
  { split; [auto |]. intros _. unfold noise_sweep_body.
    rand_step (add_gaussian_noise_run [] sigma g Hs). reflexivity. }
  destruct (Req_dec_T dt 0) as [-> | Hdt].
  { split; [auto |]. intros _.
    set (noisy := sweep_noisy (c0 :: clean) sigma g 0).
    assert (Hnn : noisy <> []).
    { intros Hnil. apply (f_equal length) in Hnil.
      unfold noisy, sweep_noisy, block_draws in Hnil.
      rewrite length_zip_with, length_map, standard_normals_length in Hnil.
      cbn in Hnil. lia. }
    destruct (moving_average_defined noisy default_window_size Hnn)
      as (f_ma & Hma & _); [unfold default_window_size; lia |].
    destruct (fft_defined (np_complex noisy)) as (yf & Hfft & _).
    { destruct noisy; [contradiction | discriminate]. }
    unfold noise_sweep_body.
    rand_step (add_gaussian_noise_run (c0 :: clean) sigma g Hs).
    change (zip_with Rplus (c0 :: clean) _) with noisy.
    rand_step Hma. unfold rand_bind at 1, rand_lift at 1, fourier_filter.
    rewrite Hfft. cbn [mbind option_bind].
    unfold fftfreq, float_div. rewrite Rmult_0_r.
    destruct (Req_dec_T 0 0) as [_ | Hne]; [reflexivity | contradiction]. }
  destruct (noise_sweep_body_entry (c0 :: clean) dt sigma results g)
    as (e & Hrun & _); [discriminate | exact Hdt | exact Hs |].
  rewrite Hrun. split; [discriminate |].
  intros [Hneg | [Hnil | Hz]]; [lra | discriminate | contradiction].
Qed.

(** When the loop of the sweep raises. *)
Lemma noise_sweep_loop_fails (clean : list R) (dt : R) (levels : list R)
    (results : list (R * SweepEntry)) (g : G) :
  for_each_rand (noise_sweep_body clean dt) levels results g = None
  <-> (levels <> [] /\ (clean = [] \/ dt = 0))
      \/ Exists (fun sigma => sigma < 0) levels.
Proof.
  revert results g. induction levels as [| sigma levels IH]; intros results g.
  - split; [discriminate |].
    intros [[Hne _] | Hex]; [contradiction | inversion Hex].
  - cbn [for_each_rand]. unfold rand_bind at 1.
    destruct (noise_sweep_body clean dt results sigma g) as [[results1 g1] |] eqn:Hbody.
    + assert (Hok : ~ (sigma < 0 \/ clean = [] \/ dt = 0)).
      { intros Hbad.
        pose proof (proj2 (noise_sweep_body_fails clean dt sigma results g) Hbad).
        congruence. }
      rewrite IH. split.
      * intros [[_ Hbad] | Hex]; [exfalso; apply Hok; auto |].
        right. right. exact Hex.
      * intros [[_ Hbad] | Hex]; [exfalso; apply Hok; auto |].
        apply Exists_cons in Hex as [Hneg | Hex]; [exfalso; apply Hok; auto |].
        right. exact Hex.
    + apply noise_sweep_body_fails in Hbody. split; [| reflexivity].
      intros _. destruct Hbody as [Hneg | Hbad].
      * right. left. exact Hneg.
      * left. split; [discriminate | exact Hbad].
Qed.

(** The loop over levels none of which is negative: the other keys are
    kept, every level holds the entry made at its last occurrence, and the
    generator has given one block of draws per level. *)
Lemma noise_sweep_loop_entries (clean : list R) (dt : R) (levels : list R)
    (results : list (R * SweepEntry)) (g : G) :
  clean <> [] -> dt <> 0 -> Forall (Rle 0) levels ->
  exists results',
    for_each_rand (noise_sweep_body clean dt) levels results g
    = Some (results', Nat.iter (length levels) (skip_normals (length clean)) g)
    /\ (forall key, key ∉ levels -> dict_get results' key = dict_get results key)
    /\ (forall key, key ∈ levels ->
          exists k e,
            levels !! k = Some key
            /\ (forall j, (k < j)%nat -> levels !! j <> Some key)
            /\ dict_get results' key = Some e
            /\ sweep_entry clean dt (sweep_noisy clean key g k) e).
Proof.
  intros Hne Hdt. revert results g.
  induction levels as [| sigma levels IH]; intros results g Hpos.
  - exists results. split; [reflexivity |]. split; [reflexivity |].
    intros key Hkey. inversion Hkey.
  - apply Forall_cons in Hpos as [Hs Hpos].
    destruct (noise_sweep_body_entry clean dt sigma results g Hne Hdt Hs)
      as (e1 & Hbody & Hentry).
    destruct (IH (dict_set results sigma e1) (skip_normals (length clean) g) Hpos)
      as (results' & Hloop & Hkeep & Hall).
    exists results'. split; [| split].
    + cbn [for_each_rand length]. rand_step Hbody. rewrite Hloop.
      rewrite Nat.iter_succ_r. reflexivity.
    + intros key Hkey. apply not_elem_of_cons in Hkey as [Hne1 Hnin].
      rewrite Hkeep by exact Hnin. apply dict_get_set_ne. congruence.
    + intros key Hkey.
      destruct (decide (key ∈ levels)) as [Hin | Hnin].
      * destruct (Hall key Hin) as (k & e & Hk & Hlast & Hget & Hent).
        exists (S k), e. split; [exact Hk |]. split; [| split; [exact Hget |]].
        -- intros [| j] Hj; [lia |]. apply Hlast. lia.
        -- unfold sweep_noisy, block_draws in *.
           rewrite Nat.iter_succ_r. exact Hent.
      * apply elem_of_cons in Hkey as [-> | Hin]; [| contradiction].
        exists 0%nat, e1. split; [reflexivity |]. split; [| split; [| exact Hentry]].
        -- intros [| j] Hj; [lia |]. cbn [lookup list_lookup]. intros Hlk.
           apply Hnin. apply list_elem_of_lookup. eauto.
        -- rewrite Hkeep by exact Hnin. apply dict_get_set_eq.
Qed.

(** The clean signal of the sweep: the default pulse on the time base of
    the generator. *)
Lemma sweep_pulse (self : SignalGenerator.t) :
  exists clean,
    SignalGenerator.generate_gaussian_pulse self 1 50 5 = Some clean
    /\ length clean = length (SignalGenerator.time self).
Proof.
  rewrite generate_gaussian_pulse_defined by lra.
  eexists. split; [reflexivity | apply length_map].
Qed.

(** X23. When [run_noise_sweep] raises and when it does not.  A
    negative level anywhere in the list makes it raise (ValueError of
    [np.random.normal]), whatever the passes before it did.  So does an
    empty time base or a zero [dt] as soon as there is a level at all
    (ValueError of [np.pad], ZeroDivisionError of [fftfreq]).  With a
    non-empty time base, a non-zero [dt] and positive levels only it
    returns. *)
Theorem run_noise_sweep_raises (self : Experiments.t) (sigma_levels : list R)
    (g : G) :
  (Exists (fun sigma => sigma < 0) sigma_levels ->
     run_noise_sweep self sigma_levels g = None)
  /\ (sigma_levels <> [] ->
      SignalGenerator.time (gen self) = [] \/ SignalGenerator.dt (gen self) = 0 ->
      run_noise_sweep self sigma_levels g = None)
  /\ (Forall (Rlt 0) sigma_levels ->
      SignalGenerator.time (gen self) <> [] ->
      SignalGenerator.dt (gen self) <> 0 ->
      is_Some (run_noise_sweep self sigma_levels g)).
Proof.
  destruct (sweep_pulse (gen self)) as (clean & Hclean & Hlen).
  assert (Hnil : clean = [] <-> SignalGenerator.time (gen self) = []).
  { split; intros Hz.
    - rewrite Hz in Hlen. destruct (SignalGenerator.time (gen self));
        [reflexivity | discriminate].
    - rewrite Hz in Hlen. destruct clean; [reflexivity | discriminate]. }
  assert (Hrun : run_noise_sweep self sigma_levels g
                 = for_each_rand
                     (noise_sweep_body clean (SignalGenerator.dt (gen self)))
                     sigma_levels [] g).
  { unfold run_noise_sweep. rand_step Hclean. reflexivity. }
  rewrite Hrun. split; [| split].
  - intros Hex. apply noise_sweep_loop_fails. right. exact Hex.
  - intros Hne Hbad. apply noise_sweep_loop_fails. left.
    split; [exact Hne |]. rewrite Hnil. exact Hbad.
  - intros Hpos Htime Hdt.
    destruct (for_each_rand _ sigma_levels [] g) as [r |] eqn:Hloop; [eauto |].
    exfalso. apply noise_sweep_loop_fails in Hloop as [[_ Hbad] | Hex].
    + rewrite Hnil in Hbad. destruct Hbad; contradiction.
    + apply Exists_exists in Hex as (sigma & Hin & Hneg).
      rewrite Forall_forall in Hpos. specialize (Hpos sigma Hin). lra.
Qed.

(** X24. On a generator with a non-empty time base and a non-zero [dt],
    the sweep over positive levels that are pairwise different, in any
    order, returns a dictionary with exactly one entry per level.  The
    entry of the level at place [k] of the list holds the four reports of
    the noisy signal of pass [k]: the clean pulse plus the level times
    the [k]-th block of unit normal draws, scored after the moving
    average, the Fourier filter, the recursive estimator, and as it is.
    Every pass draws afresh: the generator has then given one block of
    draws per level. *)
Theorem run_noise_sweep_entries (self : Experiments.t) (sigma_levels : list R)
    (g : G) :
  SignalGenerator.time (gen self) <> [] ->
  SignalGenerator.dt (gen self) <> 0 ->
  Forall (Rlt 0) sigma_levels -> NoDup sigma_levels ->
  exists clean results,
    SignalGenerator.generate_gaussian_pulse (gen self) 1 50 5 = Some clean
    /\ run_noise_sweep self sigma_levels g
       = Some (results,
               Nat.iter (length sigma_levels) (skip_normals (length clean)) g)
    /\ (forall key, is_Some (dict_get results key) <-> key ∈ sigma_levels)
    /\ (forall k sigma, sigma_levels !! k = Some sigma ->
          exists e,
            dict_get results sigma = Some e
            /\ sweep_entry clean (SignalGenerator.dt (gen self))
                 (sweep_noisy clean sigma g k) e).
Proof.
  intros Htime Hdt Hpos Hdup.
  destruct (sweep_pulse (gen self)) as (clean & Hclean & Hlen).
  assert (Hne : clean <> []).
  { intros ->. destruct (SignalGenerator.time (gen self));
      [contradiction | discriminate]. }
  assert (Hnonneg : Forall (Rle 0) sigma_levels).
  { eapply Forall_impl; [exact Hpos |]. cbn. intros x Hx. lra. }
  destruct (noise_sweep_loop_entries clean (SignalGenerator.dt (gen self))
              sigma_levels [] g Hne Hdt Hnonneg) as (results & Hloop & Hkeep & Hall).
  exists clean, results. split; [exact Hclean |]. split; [| split].
  - unfold run_noise_sweep. rand_step Hclean. exact Hloop.
  - intros key. split.
    + intros [e He]. destruct (decide (key ∈ sigma_levels)) as [Hin | Hnin];
        [exact Hin |].
      rewrite Hkeep in He by exact Hnin. discriminate.
    + intros Hin. destruct (Hall key Hin) as (k & e & _ & _ & Hget & _). eauto.
  - intros k sigma Hk.
    destruct (Hall sigma) as (k' & e & Hk' & _ & Hget & Hent).
    { apply list_elem_of_lookup. eauto. }
    assert (k' = k) by (eapply NoDup_lookup; eauto). subst k'.
    exists e. split; [exact Hget | exact Hent].
Qed.

End SweepFacts.

Lemma run_noise_sweep_entries_witness :
  exists clean results,
    SignalGenerator.generate_gaussian_pulse default_generator 1 50 5 = Some clean
    /\ run_noise_sweep {| gen := default_generator;
                          noise := {| NoiseModel.seed := 42 |} |} [2; 1] 0%nat
       = Some (results, Nat.iter 2 (skip_normals (length clean)) 0%nat)
    /\ (forall key, is_Some (dict_get results key) <-> key ∈ [2; 1]).
Proof.
  destruct (run_noise_sweep_entries
              {| gen := default_generator; noise := {| NoiseModel.seed := 42 |} |}
              [2; 1] 0%nat)
    as (clean & results & Hclean & Hrun & Hkeys & _).
  - discriminate.
  - cbn [gen default_generator SignalGenerator.dt]. lra.
  - repeat constructor; lra.
  - apply NoDup_cons. split; [| apply NoDup_singleton].
    intros Hin. apply list_elem_of_singleton in Hin. lra.
  - exists clean, results. split; [exact Hclean |]. split; [exact Hrun | exact Hkeys].
Defined.

(** ** The scaling study: keys and statistics *)

Lemma np_std_defined (a : list R) :
  a <> [] ->
  exists m s, np_mean a = Some m /\ np_std a = Some s /\ 0 <= s.
Proof.
  intros Hne. destruct (np_mean_defined a Hne) as [m Hm].
  destruct (np_mean_defined (np_square (map (fun x => x - m) a))) as [v Hv].
  { destruct a; [contradiction | discriminate]. }
  exists m, (sqrt v). split; [exact Hm |]. split; [| apply sqrt_pos].
  unfold np_std. rewrite Hm. cbn [mbind option_bind]. rewrite Hv. reflexivity.
Qed.

Lemma np_std_single (b : R) : np_std [b] = Some 0.
Proof.
  unfold np_std, np_mean, np_square, np_sum.
  cbn [mbind option_bind map foldr length INR].
  f_equal. replace (((b - (b + 0) / 1) ^ 2 + 0) / 1) with 0 by field.
  apply sqrt_0.
Qed.

Section ScalingStatistics.
Context {G : Type} `{RandomState G}.

(** X26. On a generator with a non-empty time base the scaling study
    never raises, and the keys of its dictionary are exactly the strings
    of the requested counts.  The entry of the count 0 holds nan for all
    four statistics and two empty lists; the entry of a positive count
    holds four numbers, the two standard deviations not negative and, for
    the count 1, both 0. *)
Theorem event_scaling_study_statistics (self : Experiments.t)
    (event_counts : list nat) (g : G) :
  SignalGenerator.time (gen self) <> [] ->
  exists results g',
    run_event_scaling_study self event_counts g = Some (results, g')
    /\ (forall key, is_Some (dict_get results key)
                    <-> exists count, count ∈ event_counts /\ key = str count)
    /\ (forall count e, dict_get results (str count) = Some e ->
          (count = 0%nat ->
             e = {| MA_bias_mean := None; MA_bias_std := None;
                    KF_bias_mean := None; KF_bias_std := None;
                    MA_biases := []; KF_biases := [] |})
          /\ ((0 < count)%nat ->
                exists m_ma s_ma m_kf s_kf,
                  MA_bias_mean e = Some m_ma /\ MA_bias_std e = Some s_ma
                  /\ KF_bias_mean e = Some m_kf /\ KF_bias_std e = Some s_kf
                  /\ 0 <= s_ma /\ 0 <= s_kf)
          /\ (count = 1%nat ->
                MA_bias_std e = Some 0 /\ KF_bias_std e = Some 0)).
Proof.
  intros Htime.
  destruct (scaling_loop self event_counts [] g Htime)
    as (results & g' & Hloop & _ & Hall & Hfrom).
  exists results, g'. split; [exact Hloop |]. split.
  - intros key. split.
    + intros [e He].
      destruct (Hfrom key e He) as [Hprev | (c & Hc & Hkey & _)]; [discriminate |].
      exists c. auto.
    + intros (c & Hc & ->). apply Hall, Hc.
  - intros count e He.
    destruct (Hfrom (str count) e He) as [Hprev | (c & _ & Hstr & Hent)];
      [discriminate |].
    apply (inj pretty) in Hstr. subst c.
    destruct Hent as (events & bias_ma & bias_kf & Hlen & (Hl1 & Hl2 & _) & ->).
    rewrite Hlen in Hl1, Hl2. split; [| split].
    + intros ->. destruct bias_ma; [| discriminate].
      destruct bias_kf; [| discriminate]. reflexivity.
    + intros Hpos.
      destruct (np_std_defined bias_ma) as (m_ma & s_ma & Hm1 & Hs1 & Hp1).
      { intros ->. cbn in Hl1. lia. }
      destruct (np_std_defined bias_kf) as (m_kf & s_kf & Hm2 & Hs2 & Hp2).
      { intros ->. cbn in Hl2. lia. }
      exists m_ma, s_ma, m_kf, s_kf.
      cbn [scaling_entry MA_bias_mean MA_bias_std KF_bias_mean KF_bias_std].
      auto 10.
    + intros ->.
      destruct bias_ma as [| b1 [| ? ?]]; try discriminate.
      destruct bias_kf as [| b2 [| ? ?]]; try discriminate.
      cbn [scaling_entry MA_bias_std KF_bias_std].
      split; apply np_std_single.
Qed.

End ScalingStatistics.

Lemma event_scaling_study_statistics_witness :
  exists results g',
    run_event_scaling_study
      {| gen := default_generator; noise := {| NoiseModel.seed := 42 |} |}
      [1; 0]%nat 0%nat
    = Some (results, g')
    /\ (forall key, is_Some (dict_get results key)
                    <-> exists count, count ∈ [1; 0]%nat /\ key = str count).
Proof.
  destruct (event_scaling_study_statistics
              {| gen := default_generator; noise := {| NoiseModel.seed := 42 |} |}
              [1; 0]%nat 0%nat)
    as (results & g' & Hrun & Hkeys & _).
  - discriminate.
  - exists results, g'. split; [exact Hrun | exact Hkeys].
Defined.

(** ** app.py: the simulate endpoint *)

Lemma generate_gaussian_pulse_length (self : SignalGenerator.t)
    (amplitude t0 sigma : R) (pulse : list R) :
  SignalGenerator.generate_gaussian_pulse self amplitude t0 sigma = Some pulse ->
  length pulse = length (SignalGenerator.time self).
Proof.
  unfold SignalGenerator.generate_gaussian_pulse.
  destruct (Req_dec_T (2 * sigma ^ 2) 0) as [Hz | Hnz].
  - destruct (decide (t0 ∈ SignalGenerator.time self)); [discriminate |].
    intros [= <-]. apply length_map.
  - intros [= <-]. apply length_map.
Qed.

Lemma default_generator_samples :
  length (SignalGenerator.time default_generator) = 1000%nat.
Proof. unfold default_generator. cbn [SignalGenerator.time]. apply length_map_range. Qed.

Section SimulateFacts.
Context {G : Type} `{RandomChoice G}.

(** [SignalGenerator()] from any state of the generator. *)
Lemma default_generator_init (g : G) :
  SignalGenerator.init 0 100 (1 / 10) 42 g
  = Some (default_generator, seed_state 42).
Proof.
  unfold SignalGenerator.init. unfold rand_bind at 1.
  rewrite (rand_lift_run _ _ g default_time_base). reflexivity.
Qed.

Lemma add_gaussian_noise_negative (signal : list R) (sigma : R) (g : G) :
  sigma < 0 -> NoiseModel.add_gaussian_noise signal sigma g = None.
Proof.
  intros Hneg. unfold NoiseModel.add_gaussian_noise, rand_bind, np_random_normal.
  destruct (Rlt_dec sigma 0); [reflexivity | contradiction].
Qed.

(** Both constructors seed the generator, so a request does not see the
    state an earlier one left behind. *)
Lemma simulate_reseeds (amplitude t0 sigma noise_sigma drift_amp cutoff : R)
    (g g0 : G) :
  App.simulate amplitude t0 sigma noise_sigma drift_amp cutoff g
  = App.simulate amplitude t0 sigma noise_sigma drift_amp cutoff g0.
Proof.
  unfold App.simulate.
  rewrite (rand_bind_run _ _ g _ _ (default_generator_init g)).
  rewrite (rand_bind_run _ _ g0 _ _ (default_generator_init g0)).
  reflexivity.
Qed.

(** A run of [simulate] whose pulse is defined and whose noise level is
    not negative, with the noisy signal written out. *)
Lemma simulate_run (amplitude t0 sigma noise_sigma drift_amp cutoff : R)
    (clean : list R) (g : G) :
  SignalGenerator.generate_gaussian_pulse default_generator amplitude t0 sigma
    = Some clean ->
  0 <= noise_sigma ->
  exists signs noisy recon_kf recon_ff g',
    App.simulate amplitude t0 sigma noise_sigma drift_amp cutoff g
    = Some ({| App.time := SignalGenerator.time default_generator;
               App.clean := clean; App.noisy := noisy;
               App.kalman := recon_kf; App.fourier := recon_ff |}, g')
    /\ noisy
       = zip_with Rplus
           (zip_with Rplus
              (zip_with Rplus clean
                 (map (fun z => 0 + noise_sigma * z)
                      (fst (standard_normals (length clean) (seed_state 42)))))
              (map (fun t => drift_amp * sin (2 * PI * (5 / 100) * t))
                   (SignalGenerator.time default_generator)))
           (zip_with Rmult
              (NoiseProcesses.spike_mask (5 / 1000)
                 (fst (np_random_random (length clean)
                         (skip_normals (length clean) (seed_state 42)))))
              (map (fun c => c * (15 / 10)) signs))
    /\ Forall (fun c => c = -1 \/ c = 1) signs
    /\ length signs = 1000%nat
    /\ length clean = 1000%nat
    /\ length noisy = 1000%nat
    /\ length recon_kf = 1000%nat
    /\ length recon_ff = 1000%nat.
Proof.
  intros Hclean Hs.
  pose proof (generate_gaussian_pulse_length _ _ _ _ _ Hclean) as Hcl.
  rewrite default_generator_samples in Hcl.
  destruct (apply_full_noise_model_run clean
              (SignalGenerator.time default_generator) noise_sigma drift_amp
              (5 / 100) (5 / 1000) (15 / 10) (seed_state 42))
    as (signs & g' & Hnoise & Hsl & Hsigns);
    [rewrite default_generator_samples; congruence | exact Hs |].
  set (noisy := zip_with Rplus _ _) in Hnoise.
  assert (Hnl : length noisy = 1000%nat).
  { unfold noisy, NoiseProcesses.spike_mask.
    rewrite !length_zip_with, !length_map, standard_normals_length.
    destruct (np_random_random_spec (length clean)
                (skip_normals (length clean) (seed_state 42))) as [-> _].
    rewrite default_generator_samples. lia. }
  assert (Hnn : noisy <> []) by (intros Hnil; rewrite Hnil in Hnl; discriminate).
  destruct (kalman_filter_defined noisy default_process_noise
              default_measurement_noise Hnn) as (recon_kf & Hkf & Hlkf);
    [unfold default_process_noise; lra | unfold default_measurement_noise; lra |].
  destruct (fourier_filter_defined noisy (SignalGenerator.dt default_generator)
              cutoff Hnn) as (recon_ff & Hff & Hlff).
  { unfold default_generator. cbn [SignalGenerator.dt]. lra. }
  exists signs, noisy, recon_kf, recon_ff, g'.
  split; [| split; [reflexivity |]].
  - unfold App.simulate.
    rand_step (default_generator_init g).
    rand_step (eq_refl : NoiseModel.init 42 (seed_state 42)
                         = Some ({| NoiseModel.seed := 42 |}, seed_state 42)).
    rand_step Hclean. rand_step Hnoise. rand_step Hkf. rand_step Hff.
    reflexivity.
  - split; [exact Hsigns |]. split; [lia |]. split; [exact Hcl |].
    split; [exact Hnl |]. split; lia.
Qed.

(** X27. [simulate] raises for every negative [noise_sigma] (ValueError
    of [np.random.normal]).  For a positive [noise_sigma] and a pulse
    width between [10 ^ -150] and [10 ^ 150] in magnitude it answers with
    the default time grid, the clean pulse on it and three more arrays,
    all five of 1000 entries; and since both constructors reseed the
    generator with 42, the answer is the same whatever the generator did
    before the request. *)
Theorem simulate_response (amplitude t0 sigma noise_sigma drift_amp cutoff : R)
    (g : G) :
  (noise_sigma < 0 ->
     App.simulate amplitude t0 sigma noise_sigma drift_amp cutoff g = None)
  /\ (0 < noise_sigma -> / 10 ^ 150 <= Rabs sigma <= 10 ^ 150 ->
      exists r g',
        App.simulate amplitude t0 sigma noise_sigma drift_amp cutoff g
          = Some (r, g')
        /\ App.time r = SignalGenerator.time default_generator
        /\ SignalGenerator.generate_gaussian_pulse default_generator
             amplitude t0 sigma = Some (App.clean r)
        /\ length (App.time r) = 1000%nat
        /\ length (App.clean r) = 1000%nat
        /\ length (App.noisy r) = 1000%nat
        /\ length (App.kalman r) = 1000%nat
        /\ length (App.fourier r) = 1000%nat
        /\ forall g0,
             App.simulate amplitude t0 sigma noise_sigma drift_amp cutoff g0
             = Some (r, g')).
Proof.
  split.
  - intros Hneg.
    destruct (SignalGenerator.generate_gaussian_pulse default_generator
                amplitude t0 sigma) as [clean |] eqn:Hclean;
      unfold App.simulate;
      rand_step (default_generator_init g);
      rand_step (eq_refl : NoiseModel.init 42 (seed_state 42)
                           = Some ({| NoiseModel.seed := 42 |}, seed_state 42)).
    + rand_step Hclean.
      unfold rand_bind at 1, NoiseProcesses.apply_full_noise_model, rand_bind at 1.
      rewrite add_gaussian_noise_negative by exact Hneg. reflexivity.
    + unfold rand_bind at 1, rand_lift at 1. rewrite Hclean. reflexivity.
  - intros Hpos [Hlo _].
    assert (Hs : sigma <> 0).
    { intros ->. rewrite Rabs_R0 in Hlo.
      assert (0 < / 10 ^ 150) by (apply Rinv_0_lt_compat, pow_lt; lra). lra. }
    pose proof (generate_gaussian_pulse_nonzero_width default_generator
                  amplitude t0 sigma Hs) as Hclean.
    destruct (simulate_run amplitude t0 sigma noise_sigma drift_amp cutoff
                _ g Hclean ltac:(lra))
      as (signs & noisy & recon_kf & recon_ff & g1 & Hrun & _ & _ & _
          & Hl1 & Hl2 & Hl3 & Hl4).
    eexists _, g1. split; [exact Hrun |].
    cbn [App.time App.clean App.noisy App.kalman App.fourier].
    split; [reflexivity |]. split; [exact Hclean |].
    split; [apply default_generator_samples |].
    do 4 (split; [assumption |]).
    intros g0. rewrite (simulate_reseeds _ _ _ _ _ _ g0 g). exact Hrun.
Qed.

End SimulateFacts.

